(** * magiclens: the HTML to Markdown converter ([converters/html2md.py])

    A shallow embedding of [Html2MarkdownService] and
    [Html2MarkdownConverter], and the properties of the option model, the
    rule registry, the tree clean-up and the blank-line clean-up. *)

From Stdlib Require Import Ascii String.
From stdpp Require Import gmap strings list fin_maps.

(** ** Python text

    A Python [str] is a sequence of Unicode code points.  Markdown text is
    modelled as a list of code points; names (option keys, rule names, tag
    names) are ASCII identifiers and are modelled as [string]. *)

Abbreviation str := (list N).

Fixpoint py (s : string) : str :=
  match s with
  | EmptyString => []
  | String a s' => N_of_ascii a :: py s'
  end.

(** The line feed, ['\n']. *)
Definition NL : N := 10%N.

(** [str.isspace] on one code point, the test [str.strip()] applies:
    the ASCII table of CPython ([\t \n \v \f \r], [\x1c]-[\x1f], space) and
    the Unicode white space above it. *)
Definition isspace (c : N) : bool :=
  ((9 <=? c) && (c <=? 13) || (28 <=? c) && (c <=? 32)
   || (c =? 133) || (c =? 160) || (c =? 5760)
   || (8192 <=? c) && (c <=? 8202)
   || (c =? 8232) || (c =? 8233) || (c =? 8239) || (c =? 8287)
   || (c =? 12288))%N.

Fixpoint lstrip (s : str) : str :=
  match s with
  | c :: s' => if isspace c then lstrip s' else s
  | [] => []
  end.

Definition rstrip (s : str) : str := rev (lstrip (rev s)).

(** [s.strip()] *)
Definition strip (s : str) : str := rstrip (lstrip s).

(** Truth value of a [str]: the empty string is false. *)
Definition str_truthy (s : str) : bool :=
  match s with [] => false | _ => true end.

(** [s.split(sep)] for a separator of one character: the list is never
    empty, and a separator at the end opens a last, empty piece. *)
Fixpoint split (sep : N) (s : str) : list str :=
  match s with
  | [] => [[]]
  | c :: s' =>
      if (c =? sep)%N then [] :: split sep s'
      else match split sep s' with
           | piece :: pieces => (c :: piece) :: pieces
           | [] => [[c]]
           end
  end.

(** [sep.join(pieces)] *)
Fixpoint join (sep : str) (pieces : list str) : str :=
  match pieces with
  | [] => []
  | [piece] => piece
  | piece :: rest => piece ++ sep ++ join sep rest
  end.

(** ** Python values and the object store

    Dicts, lists and the rule registry are mutable objects: a value refers
    to them by their identity, and the store maps identities to their
    current contents. *)

Abbreviation loc := positive.

Inductive val :=
  | VNone
  | VBool (b : bool)
  | VInt (z : Z)
  | VStr (s : string)
  | VRef (l : loc).

(** Instances of the rule classes of [converters/rules.py], and the rule
    objects a caller brings. *)
Inductive Rule :=
  | ParagraphRule | HeadingRule | BlockquoteRule | PreRule
  | UnorderedListRule | OrderedListRule | TaskListRule | ListItemRule
  | HorizontalRuleRule | TableRule | DefinitionListRule
  | StrongRule | EmphasisRule | CodeRule | LinkRule | ImageRule
  | StrikethroughRule | SubscriptRule | SuperscriptRule | TextRule
  | CustomRule (n : nat).

Inductive object :=
  | ODict (d : gmap string val)
  | OList (l : list val)
  | ORegistry (rules : list (string * Rule)).

Abbreviation store := (gmap loc object).

Inductive exn := TypeError | AttributeError.

Inductive outcome (A : Type) :=
  | Return (a : A)
  | Raise (e : exn).
Arguments Return {A} a.
Arguments Raise {A} e.

(** A computation reads and writes the store, and returns or raises. *)
Definition M (A : Type) : Type := store → outcome A * store.

#[global] Instance M_ret : MRet M := λ A a σ, (Return a, σ).

#[global] Instance M_bind : MBind M := λ A B f m σ,
  match m σ with
  | (Return a, σ') => f a σ'
  | (Raise e, σ') => (Raise e, σ')
  end.

Definition raise {A} (e : exn) : M A := λ σ, (Raise e, σ).

(** A computation that reads the store and leaves it as it is. *)
Definition inspect {A} (f : store → outcome A) : M A := λ σ, (f σ, σ).

(** A new object: its identity is one the store does not use. *)
Definition alloc (o : object) : M loc := λ σ,
  let l := fresh (dom σ) in (Return l, <[l:=o]> σ).

Definition write (l : loc) (o : object) : M unit := λ σ,
  (Return (), <[l:=o]> σ).

(** The bindings of the dict at [l]; an object that is no dict has none of
    the dict methods. *)
Definition read_dict (l : loc) : M (gmap string val) := λ σ,
  match σ !! l with
  | Some (ODict d) => (Return d, σ)
  | _ => (Raise AttributeError, σ)
  end.

(** [{}] *)
Definition new_dict (d : gmap string val) : M loc := alloc (ODict d).

(** [d.pop(key, default)] *)
Definition dict_pop (l : loc) (key : string) (default_ : val) : M val :=
  d ← read_dict l;
  match d !! key with
  | Some v => _ ← write l (ODict (delete key d)); mret v
  | None => mret default_
  end.

(** [d.update(other)]: the bindings of [other] win. *)
Definition dict_update (l : loc) (other : gmap string val) : M unit :=
  d ← read_dict l;
  write l (ODict (other ∪ d)).

(** [d.copy()]: a new dict with the same bindings (the values are shared). *)
Definition dict_copy (l : loc) : M loc :=
  d ← read_dict l;
  new_dict d.

(** Truth value of a dict: the empty dict is false. *)
Definition dict_truthy (l : loc) : M bool :=
  d ← read_dict l;
  mret (bool_decide (d ≠ ∅)).

(** [options or {}] for an [Optional[Dict]]. *)
Definition or_new_dict (options : option loc) : M loc :=
  match options with
  | None => new_dict ∅
  | Some l => b ← dict_truthy l; if b : bool then mret l else new_dict ∅
  end.

(** Truth value of a value, as [if v:] takes it. *)
Definition truthy (σ : store) (v : val) : bool :=
  match v with
  | VNone => false
  | VBool b => b
  | VInt z => negb (z =? 0)%Z
  | VStr s => negb (String.eqb s "")
  | VRef l =>
      match σ !! l with
      | Some (ODict d) => bool_decide (d ≠ ∅)
      | Some (OList l) => bool_decide (l ≠ [])
      | _ => true
      end
  end.

(** ** The rule registry *)

Module RuleRegistry.

(** Modelled from the spec: the class [RuleRegistry] of [core/registry.py],
    which is not among the sources. "An ordered sequence of (name, Rule)
    pairs"; [RuleRegistry()] is the empty sequence. *)
Definition new : M loc := alloc (ORegistry []).

(** Modelled from the spec: [get_rules()] of the missing [RuleRegistry],
    "yields the ordered sequence". *)
Definition get_rules (self : loc) : M (list (string * Rule)) := λ σ,
  match σ !! self with
  | Some (ORegistry rules) => (Return rules, σ)
  | _ => (Raise AttributeError, σ)
  end.

(** Modelled from the spec: [add(name, rule)] of the missing
    [RuleRegistry], which "appends". *)
Definition add (self : loc) (name : string) (rule : Rule) : M unit :=
  rules ← get_rules self;
  write self (ORegistry (rules ++ [(name, rule)])).

(** Modelled from the spec: [insert(name, rule, index)] of the missing
    [RuleRegistry], which "inserts at a position, shifting later
    entries". *)
Definition insert (self : loc) (name : string) (rule : Rule) (index : nat)
  : M unit :=
  rules ← get_rules self;
  write self (ORegistry (take index rules ++ (name, rule) :: drop index rules)).

End RuleRegistry.

(** ** The parsed tree

    The tree BeautifulSoup hands over.  Every node is an object: [id] is its
    identity, under which a loop that holds the node finds it again in the
    tree as the loop has changed it so far. *)

Inductive attr_value :=
  | AStr (s : string)
  | AList (l : list string).

Inductive Node :=
  | Tag (id : nat) (name : string) (attrs : gmap string attr_value)
        (contents : list Node)
  | NavigableString (id : nat) (s : string)
  | Comment (id : nat) (s : string).

Definition node_id (n : Node) : nat :=
  match n with
  | Tag i _ _ _ | NavigableString i _ | Comment i _ => i
  end.

Definition is_tag (n : Node) : bool :=
  match n with Tag _ _ _ _ => true | _ => false end.

Definition is_comment (n : Node) : bool :=
  match n with Comment _ _ => true | _ => false end.

Definition has_name (name : string) (n : Node) : bool :=
  match n with Tag _ name' _ _ => String.eqb name' name | _ => false end.

Definition has_class (n : Node) : bool :=
  match n with Tag _ _ attrs _ => bool_decide (is_Some (attrs !! "class")) | _ => false end.

(** A node and all below it, in document order. *)
Fixpoint descendants (n : Node) : list Node :=
  n :: match n with
       | Tag _ _ _ contents => flat_map descendants contents
       | _ => []
       end.

(** [soup.find_all(...)]: the nodes below the root that match, in document
    order; the list is made before the loop over it starts. *)
Definition find_all (matches : Node → bool) (soup : list Node) : list nat :=
  node_id <$> filter (λ n, matches n = true) (flat_map descendants soup).

(** The node with identity [i], as it is in the tree now. *)
Definition get_node (i : nat) (soup : list Node) : option Node :=
  head (filter (λ n, node_id n = i) (flat_map descendants soup)).

Fixpoint without (i : nat) (n : Node) : list Node :=
  if bool_decide (node_id n = i) then []
  else match n with
       | Tag j name attrs contents =>
           [Tag j name attrs (flat_map (without i) contents)]
       | _ => [n]
       end.

(** [tag.decompose()] and [comment.extract()]: the node leaves the tree, and
    all below it with it.  On a node that has left already, nothing
    happens. *)
Definition decompose (i : nat) (soup : list Node) : list Node :=
  flat_map (without i) soup.

Fixpoint with_attrs (i : nat) (f : gmap string attr_value → gmap string attr_value)
    (n : Node) : Node :=
  match n with
  | Tag j name attrs contents =>
      Tag j name (if bool_decide (j = i) then f attrs else attrs)
          (with_attrs i f <$> contents)
  | _ => n
  end.

(** Assignment to and deletion from [tag.attrs]. *)
Definition set_attrs (i : nat) (f : gmap string attr_value → gmap string attr_value)
    (soup : list Node) : list Node :=
  with_attrs i f <$> soup.

(** The one-character strings of a string: what iterating a [str] gives. *)
Fixpoint chars (s : string) : list string :=
  match s with
  | EmptyString => []
  | String a s' => String a EmptyString :: chars s'
  end.

(** ** The service *)

Module Html2MarkdownService.

Record Service := { options : loc; rules : loc }.

Definition register_rule (self : Service) (name : string) (rule : Rule)
  : M unit :=
  RuleRegistry.add (rules self) name rule.

Definition _register_default_rules (self : Service) : M unit :=
  _ ← register_rule self "paragraph" ParagraphRule;
  _ ← register_rule self "heading" HeadingRule;
  _ ← register_rule self "blockquote" BlockquoteRule;
  _ ← register_rule self "code-block" PreRule;
  _ ← register_rule self "unordered-list" UnorderedListRule;
  _ ← register_rule self "ordered-list" OrderedListRule;
  _ ← register_rule self "task-list" TaskListRule;
  _ ← register_rule self "list-item" ListItemRule;
  _ ← register_rule self "horizontal-rule" HorizontalRuleRule;
  _ ← register_rule self "table" TableRule;
  _ ← register_rule self "definition-list" DefinitionListRule;
  _ ← register_rule self "strong" StrongRule;
  _ ← register_rule self "emphasis" EmphasisRule;
  _ ← register_rule self "code" CodeRule;
  _ ← register_rule self "link" LinkRule;
  _ ← register_rule self "image" ImageRule;
  _ ← register_rule self "strikethrough" StrikethroughRule;
  _ ← register_rule self "subscript" SubscriptRule;
  _ ← register_rule self "superscript" SuperscriptRule;
  register_rule self "text" TextRule.

Definition __init__ (options : option loc) : M Service :=
  opts ← or_new_dict options;
  registry ← RuleRegistry.new;
  let self := {| options := opts; rules := registry |} in
  _ ← _register_default_rules self;
  mret self.

(** Whether Python can hash a value, as a test [v in d] on a dict and
    [s.intersection(vs)] on a set do with the values they are given: a
    dict and a list cannot be hashed. *)
Definition hashable (σ : store) (v : val) : bool :=
  match v with
  | VRef l =>
      match σ !! l with
      | Some (ODict _) | Some (OList _) => false
      | _ => true
      end
  | _ => true
  end.

(** The strings among the values: the only values that can be equal to the
    name of an attribute or of a class. *)
Definition strings_of (vs : list val) : list string :=
  omap (λ v, match v with VStr s => Some s | _ => None end) vs.

Definition flag_option (clean : gmap string val) (key : string)
    (default_ : bool) : M bool := λ σ,
  match clean !! key with
  | Some v => (Return (truthy σ v), σ)
  | None => (Return default_, σ)
  end.

(** The names for which [tag.decompose()] is not called on an empty tag. *)
Definition void_names : list string :=
  ["img"; "br"; "hr"; "input"; "meta"; "link"].

(** One turn of the loop over [soup.find_all()] that removes empty tags:
    the tag is looked at as the loop has left it. *)
Definition remove_empty_step (soup : list Node) (i : nat) : list Node :=
  match get_node i soup with
  | Some (Tag _ name _ []) =>
      if bool_decide (name ∈ void_names) then soup else decompose i soup
  | _ => soup
  end.

Definition remove_empty_tags (soup : list Node) : list Node :=
  fold_left remove_empty_step (find_all is_tag soup) soup.

(** The loops [for tag_name in remove_tags: for tag in
    soup.find_all(tag_name): tag.decompose()], over what each
    [find_all] looks for. *)
Definition remove_found (filters : list (Node → bool)) (soup : list Node)
  : list Node :=
  fold_left
    (λ soup matches,
       fold_left (λ soup i, decompose i soup) (find_all matches soup) soup)
    filters soup.

(** The same loops for tag names that are strings. *)
Definition remove_tags (names : list string) (soup : list Node) : list Node :=
  remove_found (has_name <$> names) soup.

Definition remove_attrs (names : list string) (soup : list Node) : list Node :=
  fold_left
    (λ soup i,
       fold_left (λ soup attr, set_attrs i (delete attr) soup) names soup)
    (find_all is_tag soup) soup.

Section preprocess.

(** [list(s)] of the set with the elements given: each once, in the
    order the hash table gives. *)
Variable list_of_set : list string → list string.

(** The keys of the dict at an identity, which has the bindings given, in
    the order a loop over the dict goes through them: the order of their
    insertion, which the map does not keep. *)
Variable keys_in_order : loc → gmap string val → list string.

(** What [soup.find_all(name)] looks for when [name] is no string
    ([None], [True], a number, a list, a dict): BeautifulSoup decides
    it. *)
Variable name_filter : store → val → Node → bool.

Definition remove_classes_attrs (names : list string)
    (attrs : gmap string attr_value) : gmap string attr_value :=
  let classes :=
    match attrs !! "class" with
    | Some (AList l) => l
    | Some (AStr s) => chars s
    | None => []
    end in
  let classes_to_remove := filter (λ c, c ∈ names) classes in
  match classes_to_remove with
  | [] => attrs
  | _ =>
      let classes := filter (λ c, c ∉ classes_to_remove) classes in
      match classes with
      | [] => delete "class" attrs
      | _ => <["class" := AList (list_of_set classes)]> attrs
      end
  end.

Definition remove_classes (names : list string) (soup : list Node)
  : list Node :=
  fold_left (λ soup i, set_attrs i (remove_classes_attrs names) soup)
            (find_all has_class soup) soup.

Definition remove_comments (soup : list Node) : list Node :=
  fold_left (λ soup i, decompose i soup) (find_all is_comment soup) soup.

(** [for x in v]: the values the loop goes through, the characters of a
    string, the elements of a list or the keys of a dict; nothing for a
    value that cannot be iterated ([None], a bool, an int, the registry),
    where the loop raises TypeError. *)
Definition iterate (σ : store) (v : val) : option (list val) :=
  match v with
  | VStr s => Some (VStr <$> chars s)
  | VRef l =>
      match σ !! l with
      | Some (OList vs) => Some vs
      | Some (ODict d) => Some (VStr <$> keys_in_order l d)
      | _ => None
      end
  | _ => None
  end.

(** What [soup.find_all(tag_name)] looks for. *)
Definition find_all_filter (σ : store) (tag_name : val) : Node → bool :=
  match tag_name with
  | VStr s => has_name s
  | _ => name_filter σ tag_name
  end.

(** [clean_options.get("removeTags", default_remove_tags)] as the loop
    [for tag_name in remove_tags] goes through it. *)
Definition tag_filters (clean : gmap string val) : M (list (Node → bool)) :=
  inspect (λ σ,
    match clean !! "removeTags" with
    | None => Return (has_name <$> ["script"; "style"; "noscript"])
    | Some v =>
        match iterate σ v with
        | Some tag_names => Return (find_all_filter σ <$> tag_names)
        | None => Raise TypeError
        end
    end).

(** [clean_options.get(key, [])] as the code uses it for removeAttrs and
    removeClasses: tested first ([if remove_attrs:]), and then gone
    through once for every tag of [visited], the tags the loop over
    [find_all] visits.  A value that is false gives no name, and when no
    tag is visited the value is not looked at further.  When a tag is
    visited, a value that cannot be iterated raises TypeError, and so does
    an element that cannot be hashed ([attr in tag.attrs] hashes it, and so
    does [classes.intersection]); an element that is no string is equal to
    no attribute and no class. *)
Definition listed_names (clean : gmap string val) (key : string)
    (visited : list nat) : M (list string) :=
  inspect (λ σ,
    match clean !! key with
    | None => Return []
    | Some v =>
        if truthy σ v then
          match visited with
          | [] => Return []
          | _ :: _ =>
              match iterate σ v with
              | Some vs =>
                  if forallb (hashable σ) vs then Return (strings_of vs)
                  else Raise TypeError
              | None => Raise TypeError
              end
          end
        else Return []
    end).

(** [_preprocess] changes the tree in place; the model returns the tree
    as the method leaves it. *)
Definition _preprocess (self : Service) (soup : list Node)
  : M (list Node) :=
  opts ← read_dict (options self);
  clean_options ←
    match opts !! "clean" with
    | Some (VRef l) => read_dict l
    | Some _ => raise AttributeError
    | None => mret ∅
    end;
  filters ← tag_filters clean_options;
  let soup := remove_found filters soup in
  remove_attrs_ ← listed_names clean_options "removeAttrs"
                               (find_all is_tag soup);
  let soup :=
    match remove_attrs_ with [] => soup | _ => remove_attrs remove_attrs_ soup end in
  remove_classes_ ← listed_names clean_options "removeClasses"
                                 (find_all has_class soup);
  let soup :=
    match remove_classes_ with
    | [] => soup
    | _ => remove_classes remove_classes_ soup
    end in
  remove_empty ← flag_option clean_options "removeEmptyTags" false;
  let soup := if remove_empty : bool then remove_empty_tags soup else soup in
  remove_comments_ ← flag_option clean_options "removeComments" true;
  let soup :=
    if remove_comments_ : bool then remove_comments soup else soup in
  mret soup.

End preprocess.

(** One turn of the loop of [_postprocess]; the loop state is
    [(result, prev_empty)]. *)
Definition postprocess_step (st : list str * bool) (line : str)
  : list str * bool :=
  let '(result, prev_empty) := st in
  let is_empty := negb (str_truthy (strip line)) in
  if is_empty && prev_empty then (result, prev_empty)
  else (result ++ [line], is_empty).

Definition _postprocess (markdown : str) : str :=
  let lines := split NL markdown in
  let '(result, _) := fold_left postprocess_step lines ([], false) in
  join [NL] result.

End Html2MarkdownService.

(** ** The converter *)

Module Html2MarkdownConverter.

Import Html2MarkdownService.

Record Converter := { service : Service }.

(** The table of [_get_dialect_options]. *)
Definition dialect_options : gmap string (gmap string val) :=
  list_to_map
    [ ("commonmark",
       list_to_map
         [ ("headingStyle", VStr "atx");
           ("bulletListMarker", VStr "*");
           ("codeBlockStyle", VStr "fenced");
           ("emDelimiter", VStr "*");
           ("strongDelimiter", VStr "**");
           ("linkStyle", VStr "inlined");
           ("useHtmlTags", VBool true);
           ("gfm", VBool false) ]);
      ("github",
       list_to_map
         [ ("headingStyle", VStr "atx");
           ("bulletListMarker", VStr "-");
           ("codeBlockStyle", VStr "fenced");
           ("emDelimiter", VStr "*");
           ("strongDelimiter", VStr "**");
           ("linkStyle", VStr "inlined");
           ("useHtmlTags", VBool true);
           ("gfm", VBool true);
           ("strikethrough", VBool true);
           ("tables", VBool true);
           ("taskLists", VBool true) ]);
      ("traditional",
       list_to_map
         [ ("headingStyle", VStr "setext");
           ("bulletListMarker", VStr "*");
           ("codeBlockStyle", VStr "indented");
           ("emDelimiter", VStr "_");
           ("strongDelimiter", VStr "__");
           ("linkStyle", VStr "referenced");
           ("useHtmlTags", VBool true);
           ("gfm", VBool false);
           ("smartPunctuation", VBool true) ]);
      ("custom", ∅) ].

(** [dialect_options.get(dialect, {})].  The table is a dict literal, built
    anew at every call: the dict returned is a new object.  A key that is a
    dict or a list cannot be hashed. *)
Definition _get_dialect_options (dialect : val) : M loc :=
  match dialect with
  | VStr name => new_dict (default ∅ (dialect_options !! name))
  | VRef l => λ σ,
      match σ !! l with
      | Some (ODict _) | Some (OList _) => (Raise TypeError, σ)
      | _ => new_dict ∅ σ
      end
  | _ => new_dict ∅
  end.

Definition __init__ (options : option loc) : M Converter :=
  options ← or_new_dict options;
  dialect ← dict_pop options "dialect" (VStr "github");
  dialect_options ← _get_dialect_options dialect;
  given ← read_dict options;
  _ ← (if bool_decide (given ≠ ∅) then dict_update dialect_options given
       else mret ());
  service ← Html2MarkdownService.__init__ (Some dialect_options);
  mret {| service := service |}.

(** The index of the first rule called ["text"] from [i] on, or [-1]. *)
Fixpoint text_rule_index (rules : list (string * Rule)) (i : Z) : Z :=
  match rules with
  | [] => -1
  | (rule_name, _) :: rest =>
      if String.eqb rule_name "text" then i
      else text_rule_index rest (i + 1)
  end.

Definition register_rule (self : Converter) (name : string) (rule : Rule)
    (priority : option Z) : M unit :=
  match priority with
  | None =>
      rules ← RuleRegistry.get_rules (rules (service self));
      let text_rule_index := text_rule_index rules 0 in
      if (0 <=? text_rule_index)%Z then
        RuleRegistry.insert (Html2MarkdownService.rules (service self))
                            name rule (Z.to_nat text_rule_index)
      else Html2MarkdownService.register_rule (service self) name rule
  | Some _ => Html2MarkdownService.register_rule (service self) name rule
  end.

Section convert.

(** Modelled from the spec: [turndown] of [MagicLensService]
    ([core/service.py], not among the sources), the pipeline
    "preprocess, traverse/render, postprocess" on the service's own
    options and rules; "the rule registry is read-only during a
    conversion".  It reads the store, and returns the Markdown or
    raises. *)
Variable turndown : Service → str → store → outcome str.

(** [str(v)], as an f-string formats a value. *)
Variable format : store → val → str.

Definition convert_html (self : Converter) (html : str)
    (kwargs : gmap string val) : M str :=
  let fragment := default (VBool false) (kwargs !! "fragment") in
  let kwargs := delete "fragment" kwargs in
  let fragment_root := default (VStr "div") (kwargs !! "fragment_root") in
  let kwargs := delete "fragment_root" kwargs in
  is_fragment ← inspect (λ σ, Return (truthy σ fragment));
  root ← inspect (λ σ, Return (format σ fragment_root));
  let html :=
    if is_fragment : bool then
      py "<" ++ root ++ py ">" ++ html ++ py "</" ++ root ++ py ">"
    else html in
  if bool_decide (kwargs ≠ ∅) then
    options ← dict_copy (options (service self));
    _ ← dict_update options kwargs;
    temp_service ← Html2MarkdownService.__init__ (Some options);
    inspect (turndown temp_service html)
  else inspect (turndown (service self) html).

(** [self.convert_html(html, **kwargs)], the call the other methods make:
    a key "html" of [kwargs] is a second value for the parameter [html],
    and the call raises TypeError before the body runs. *)
Definition call_convert_html (self : Converter) (html : str)
    (kwargs : gmap string val) : M str :=
  match kwargs !! "html" with
  | Some _ => raise TypeError
  | None => convert_html self html kwargs
  end.

Definition convert_html_fragment (self : Converter) (html_fragment : str)
    (kwargs : gmap string val) : M str :=
  call_convert_html self html_fragment (<["fragment" := VBool true]> kwargs).

End convert.

End Html2MarkdownConverter.

(** ** Vocabulary of the option and registry properties *)

(** The rules [_register_default_rules] registers, in its order. *)
Definition default_rules : list (string * Rule) :=
  [ ("paragraph", ParagraphRule); ("heading", HeadingRule);
    ("blockquote", BlockquoteRule); ("code-block", PreRule);
    ("unordered-list", UnorderedListRule); ("ordered-list", OrderedListRule);
    ("task-list", TaskListRule); ("list-item", ListItemRule);
    ("horizontal-rule", HorizontalRuleRule); ("table", TableRule);
    ("definition-list", DefinitionListRule);
    ("strong", StrongRule); ("emphasis", EmphasisRule); ("code", CodeRule);
    ("link", LinkRule); ("image", ImageRule);
    ("strikethrough", StrikethroughRule); ("subscript", SubscriptRule);
    ("superscript", SuperscriptRule); ("text", TextRule) ].

(** The bindings [u] a caller passes to a constructor: none for [None],
    those of the dict otherwise. *)
Definition given (σ : store) (options : option loc) (u : gmap string val) : Prop :=
  match options with
  | None => u = ∅
  | Some l => σ !! l = Some (ODict u)
  end.


(** A converter is made, a rule is registered at priority 0, and the rules
    are read. *)
Definition register_at_front : M (list (string * Rule)) :=
  self ← Html2MarkdownConverter.__init__ None;
  _ ← Html2MarkdownConverter.register_rule self "custom" (CustomRule 0) (Some 0%Z);
  RuleRegistry.get_rules (Html2MarkdownService.rules (Html2MarkdownConverter.service self)).

(** ** Vocabulary of the tree properties *)

(** Three empty [div] elements, one in the other. *)
Definition three_empty_divs : list Node :=
  [Tag 1 "div" ∅ [Tag 2 "div" ∅ [Tag 3 "div" ∅ []]]].

Definition contents_of (n : Node) : list Node :=
  match n with Tag _ _ _ contents => contents | _ => [] end.

(** An empty tag the pass removes. *)
Definition removable (n : Node) : bool :=
  match n with
  | Tag _ name _ [] => negb (bool_decide (name ∈ Html2MarkdownService.void_names))
  | _ => false
  end.

(** The tree without the nodes that are removable in it as it stands. *)
Fixpoint prune (n : Node) : list Node :=
  if removable n then []
  else match n with
       | Tag i name attrs contents => [Tag i name attrs (flat_map prune contents)]
       | _ => [n]
       end.

(** The tree without the nodes whose identity is in [D]. *)
Fixpoint erase (D : list nat) (n : Node) : list Node :=
  if bool_decide (node_id n ∈ D) then []
  else match n with
       | Tag i name attrs contents =>
           [Tag i name attrs (flat_map (erase D) contents)]
       | _ => [n]
       end.

Definition erase_below (D : list nat) (n : Node) : Node :=
  match n with
  | Tag i name attrs contents => Tag i name attrs (flat_map (erase D) contents)
  | _ => n
  end.

Definition removable_ids (nodes : list Node) : list nat :=
  node_id <$> filter (λ n, removable n = true) nodes.

(** ** Vocabulary of the blank-line properties *)

(** A blank line: empty once stripped. *)
Definition is_blank (line : str) : bool := negb (str_truthy (strip line)).

(** Some line and the next one are both blank. *)
Fixpoint adjacent_blank (lines : list str) : bool :=
  match lines with
  | a :: (b :: _) as rest => is_blank a && is_blank b || adjacent_blank rest
  | _ => false
  end.

(** The first line, if there is one, is blank. *)
Definition head_blank (lines : list str) : bool :=
  match lines with
  | line :: _ => is_blank line
  | [] => false
  end.

(** The last line, if there is one, is blank. *)
Definition last_blank (lines : list str) : bool :=
  match last lines with
  | Some line => is_blank line
  | None => false
  end.

(** The text ends in a white-space character. *)
Definition ends_in_space (s : str) : bool :=
  match last s with
  | Some c => isspace c
  | None => false
  end.

(** The text ends in two line feeds. *)
Definition ends_in_two_newlines (s : str) : bool :=
  match rev s with
  | a :: b :: _ => (a =? NL)%N && (b =? NL)%N
  | _ => false
  end.

(** The text has three line feeds in a row somewhere. *)
Fixpoint has_three_newlines (s : str) : bool :=
  match s with
  | a :: (b :: c :: _) as rest =>
      (a =? NL)%N && (b =? NL)%N && (c =? NL)%N || has_three_newlines rest
  | _ => false
  end.

(** The lines the loop of [_postprocess] keeps, without the accumulator:
    [prev] is the loop's [prev_empty]. *)
Fixpoint collapse (prev : bool) (lines : list str) : list str :=
  match lines with
  | [] => []
  | line :: rest =>
      if is_blank line && prev then collapse prev rest
      else line :: collapse (is_blank line) rest
  end.

(** The value of [prev_empty] once the loop has read [lines]. *)
Definition prev_after (prev : bool) (lines : list str) : bool :=
  match last lines with
  | Some line => is_blank line
  | None => prev
  end.

(** The lines of a text that are not blank lines right after a blank line:
    each line is paired with whether the line before it is blank. *)
Definition without_repeated_blank (lines : list str) : list str :=
  (filter (λ p : bool * str, (is_blank p.2 && p.1) = false)
          (zip (false :: (is_blank <$> lines)) lines)).*2.

(** ** Vocabulary of further properties of the converter *)

(** The preset a dialect name stands for; none for a name outside the
    table. *)
Definition preset_of (name : string) : gmap string val :=
  default ∅ (Html2MarkdownConverter.dialect_options !! name).

(** What [convert_html] makes of a fragment: the text in the root element. *)
Definition wrapped (root html : str) : str :=
  py "<" ++ root ++ py ">" ++ html ++ py "</" ++ root ++ py ">".

(** Two converters made one after the other from the same options. *)
Definition two_converters (arg : option loc)
  : M (Html2MarkdownConverter.Converter * Html2MarkdownConverter.Converter) :=
  first ← Html2MarkdownConverter.__init__ arg;
  second ← Html2MarkdownConverter.__init__ arg;
  mret (first, second).

(** Two rules registered one after the other, without a priority. *)
Definition register_two (self : Html2MarkdownConverter.Converter)
    (name1 : string) (rule1 : Rule) (name2 : string) (rule2 : Rule) : M unit :=
  _ ← Html2MarkdownConverter.register_rule self name1 rule1 None;
  Html2MarkdownConverter.register_rule self name2 rule2 None.

(** ** [Html2MarkdownConverter.convert_url] *)

(** What [convert_url] reads of the answer to its request: the Content-Type
    header, if there is one, and the text. *)
Record Response := { content_type_header : option string; text : str }.

Section convert_url.

Variable turndown : Html2MarkdownService.Service → str → store → outcome str.
Variable format : store → val → str.

(** [requests.get(url)] followed by [raise_for_status()]: the answer, or
    nothing when one of the two raises. *)
Variable requests_get : string → option Response.

(** Nothing is returned when the request raises; the exception of
    [requests] then leaves [convert_url] before anything else is done. *)
Definition convert_url (self : Html2MarkdownConverter.Converter)
    (url : string) (kwargs : gmap string val)
  : store → option (outcome str) * store := λ σ,
  match requests_get url with
  | None => (None, σ)
  | Some response =>
      let kwargs :=
        match kwargs !! "content_type" with
        | Some _ => kwargs
        | None =>
            <["content_type" :=
                VStr (default "" (content_type_header response))]> kwargs
        end in
      let kwargs := <["url" := VStr url]> kwargs in
      let '(result, σ') :=
        Html2MarkdownConverter.call_convert_html turndown format self
          (text response) kwargs σ in
      (Some result, σ')
  end.

End convert_url.

(** ** Vocabulary of further properties of the tree clean-up *)

(** The tree without the nodes that satisfy [p], and all below them. *)
Fixpoint remove_where (p : Node → bool) (n : Node) : list Node :=
  if p n then []
  else match n with
       | Tag i name attrs contents =>
           [Tag i name attrs (flat_map (remove_where p) contents)]
       | _ => [n]
       end.

(** The tree with [f] applied to the attributes of every tag. *)
Fixpoint map_attrs (f : gmap string attr_value → gmap string attr_value)
    (n : Node) : Node :=
  match n with
  | Tag i name attrs contents => Tag i name (f attrs) (map_attrs f <$> contents)
  | _ => n
  end.

(** The tree with [f] applied to the attributes of the tags whose identity
    is in [S]. *)
Fixpoint with_attrs_in (S : list nat)
    (f : gmap string attr_value → gmap string attr_value) (n : Node) : Node :=
  match n with
  | Tag j name attrs contents =>
      Tag j name (if bool_decide (j ∈ S) then f attrs else attrs)
          (with_attrs_in S f <$> contents)
  | _ => n
  end.

(** A tag with one of the names. *)
Definition named (names : list string) (n : Node) : bool :=
  existsb (λ tag_name, has_name tag_name n) names.

(** The attributes whose name is not among [names]. *)
Definition without_keys (names : list string)
    (attrs : gmap string attr_value) : gmap string attr_value :=
  filter (λ kv : string * attr_value, kv.1 ∉ names) attrs.

(** [p] looks at a tag's identity, name and attributes only. *)
Definition ignores_contents (p : Node → bool) : Prop :=
  ∀ i name attrs contents contents',
    p (Tag i name attrs contents) = p (Tag i name attrs contents').

(** A computation that leaves the store as it finds it. *)
Definition reads_only {A} (m : M A) : Prop := ∀ σ, (m σ).2 = σ.

(** The clean options [_preprocess] reads from the options [d] of the
    service: those of the dict under "clean", none when there is no such
    key. *)
Definition clean_options_of (σ : store) (d clean : gmap string val) : Prop :=
  match d !! "clean" with
  | None => clean = ∅
  | Some (VRef c) => σ !! c = Some (ODict clean)
  | Some _ => False
  end.

(** A flag of the clean options, with its default. *)
Definition clean_flag (σ : store) (clean : gmap string val) (key : string)
    (default_ : bool) : bool :=
  match clean !! key with
  | Some v => truthy σ v
  | None => default_
  end.


(** * Properties *)

Import Html2MarkdownService.

Section text_lemmas.

Lemma split_nonempty sep s : split sep s ≠ [].
Proof. destruct s as [|c s]; simpl; [done|]. repeat case_match; done. Qed.

Lemma split_app sep a b :
  split sep (a ++ sep :: b) = split sep a ++ split sep b.
Proof.
  induction a as [|c a IH]; simpl.
  - by rewrite N.eqb_refl.
  - rewrite IH. destruct (c =? sep)%N; [done|].
    pose proof (split_nonempty sep a).
    destruct (split sep a); done.
Qed.

Lemma split_free sep s : Forall (λ piece, sep ∉ piece) (split sep s).
Proof.
  induction s as [|c s IH]; simpl.
  - constructor; [set_solver|constructor].
  - destruct (N.eqb_spec c sep) as [->|Hne].
    + constructor; [set_solver|done].
    + destruct (split sep s) as [|piece pieces]; inversion IH; subst.
      * constructor; [set_solver|constructor].
      * constructor; [|done]. set_solver.
Qed.

Lemma join_split sep s : join [sep] (split sep s) = s.
Proof.
  induction s as [|c s IH]; simpl; [done|].
  pose proof (split_nonempty sep s) as Hne.
  destruct (N.eqb_spec c sep) as [->|Hc].
  - destruct (split sep s); [done|]. simpl in *. by rewrite IH.
  - destruct (split sep s) as [|piece [|p2 pieces]]; [done| |].
    + simpl in *. by rewrite IH.
    + simpl in *. by rewrite <- IH.
Qed.

Lemma split_free_one sep piece : sep ∉ piece → split sep piece = [piece].
Proof.
  induction piece as [|c piece IH]; simpl; intros Hn; [done|].
  destruct (N.eqb_spec c sep) as [->|Hc]; [set_solver|].
  rewrite IH; [done|set_solver].
Qed.

Lemma split_join sep pieces :
  pieces ≠ [] → Forall (λ piece, sep ∉ piece) pieces →
  split sep (join [sep] pieces) = pieces.
Proof.
  induction pieces as [|piece rest IH]; intros Hne Hfree; [done|].
  inversion Hfree as [|? ? Hp Hrest]; subst.
  destruct rest as [|p2 rest].
  - simpl. by apply split_free_one.
  - change (join [sep] (piece :: p2 :: rest))
      with (piece ++ sep :: join [sep] (p2 :: rest)).
    rewrite split_app, IH by done. by rewrite split_free_one.
Qed.

End text_lemmas.

Section postprocess_lemmas.

Lemma postprocess_loop lines result prev :
  (fold_left postprocess_step lines (result, prev)).1
  = result ++ collapse prev lines.
Proof.
  revert result prev.
  induction lines as [|line rest IH]; intros result prev; simpl.
  - by rewrite app_nil_r.
  - fold (is_blank line). destruct (is_blank line && prev).
    + apply IH.
    + rewrite IH. by rewrite <- app_assoc.
Qed.

Lemma postprocess_collapse markdown :
  _postprocess markdown = join [NL] (collapse false (split NL markdown)).
Proof.
  unfold _postprocess.
  pose proof (postprocess_loop (split NL markdown) [] false) as H.
  destruct (fold_left _ _ _) as [result p]. simpl in H. by rewrite H.
Qed.

Lemma collapse_nonempty lines : lines ≠ [] → collapse false lines ≠ [].
Proof.
  destruct lines as [|line rest]; [done|]. simpl.
  by rewrite andb_false_r.
Qed.

Lemma collapse_free (P : str → Prop) prev lines :
  Forall P lines → Forall P (collapse prev lines).
Proof.
  intros H. revert prev.
  induction H as [|line rest Hl Hr IH]; intros prev; simpl; [done|].
  destruct (is_blank line && prev); [apply IH|].
  constructor; [done|apply IH].
Qed.

(** After a blank line the loop keeps no blank line, and what it keeps has
    no two blank lines in a row. *)
Lemma collapse_adjacent prev lines :
  adjacent_blank (collapse prev lines) = false
  ∧ (prev = true → head_blank (collapse prev lines) = false).
Proof.
  revert prev. induction lines as [|line rest IH]; intros prev; simpl.
  - done.
  - destruct (is_blank line) eqn:Hb; simpl.
    + destruct prev; simpl.
      * apply IH.
      * destruct (IH true) as [Hadj Hhead]. split; [|done].
        destruct (collapse true rest) as [|b tl] eqn:Hc; [done|].
        simpl in *. rewrite Hb, Hadj, Hhead; done.
    + destruct (IH false) as [Hadj _]. split; [|done].
      destruct (collapse false rest) as [|b tl]; [done|].
      simpl in *. by rewrite Hb, Hadj.
Qed.

Lemma adjacent_blank_cons line rest :
  adjacent_blank (line :: rest) = false →
  adjacent_blank rest = false
  ∧ (is_blank line = true → head_blank rest = false).
Proof.
  destruct rest as [|b tl]; [done|]. simpl.
  destruct (is_blank line), (is_blank b), (adjacent_blank _); naive_solver.
Qed.

Lemma collapse_id prev lines :
  adjacent_blank lines = false →
  (prev = true → head_blank lines = false) →
  collapse prev lines = lines.
Proof.
  revert prev. induction lines as [|line rest IH]; intros prev Hadj Hhead;
    simpl; [done|].
  apply adjacent_blank_cons in Hadj as [Hadj Hnext].
  destruct (is_blank line) eqn:Hb; simpl.
  - destruct prev.
    + specialize (Hhead eq_refl). simpl in Hhead. congruence.
    + f_equal. apply IH; auto.
  - f_equal. apply IH; [done|]. intros [=].
Qed.

Lemma collapse_two_empty prev rest :
  collapse prev ([] :: [] :: rest) = collapse prev ([] :: rest).
Proof. by destruct prev. Qed.

Lemma collapse_app prev xs ys :
  collapse prev (xs ++ ys)
  = collapse prev xs ++ collapse (prev_after prev xs) ys.
Proof.
  revert prev. induction xs as [|line rest IH]; intros prev; [done|].
  assert (prev_after prev (line :: rest) = prev_after (is_blank line) rest)
    as ->.
  { unfold prev_after. rewrite last_cons. by destruct (last rest). }
  simpl. destruct (is_blank line) eqn:Hb, prev; simpl;
    by rewrite IH, ?Hb.
Qed.

Lemma split_newlines k rest :
  split NL (repeat NL k ++ rest) = repeat [] k ++ split NL rest.
Proof. induction k as [|k IH]; [done|]. simpl. by rewrite IH. Qed.

Lemma adjacent_blank_tail lines :
  adjacent_blank (tail lines) = true → adjacent_blank lines = true.
Proof.
  destruct lines as [|a [|b tl]]; simpl; try done.
  intros ->. by rewrite orb_true_r.
Qed.

Lemma adjacent_blank_app xs ys :
  adjacent_blank ys = true → adjacent_blank (xs ++ ys) = true.
Proof.
  intros H. induction xs as [|x xs IH]; [done|].
  apply adjacent_blank_tail. exact IH.
Qed.

Lemma three_newlines_adjacent s :
  has_three_newlines s = true → adjacent_blank (tail (split NL s)) = true.
Proof.
  induction s as [|a s IH]; [done|]. intros H.
  assert ((∃ t, a = NL ∧ s = NL :: NL :: t) ∨ has_three_newlines s = true)
    as [(t & -> & ->)|H'].
  { destruct s as [|b [|c t]]; [done..|].
    cbn [has_three_newlines] in H.
    apply orb_true_iff in H as [H|H]; [left|by right].
    apply andb_true_iff in H as [H Hc]. apply andb_true_iff in H as [Ha Hb].
    apply N.eqb_eq in Ha, Hb, Hc. subst. by exists t. }
  - done.
  - specialize (IH H'). simpl. destruct (a =? NL)%N; simpl.
    + by apply adjacent_blank_tail.
    + pose proof (split_nonempty NL s). destruct (split NL s); done.
Qed.

Lemma postprocess_no_adjacent markdown :
  adjacent_blank (split NL (_postprocess markdown)) = false.
Proof.
  rewrite postprocess_collapse, split_join.
  - apply collapse_adjacent.
  - apply collapse_nonempty, split_nonempty.
  - apply collapse_free, split_free.
Qed.

Lemma postprocess_fixed markdown :
  adjacent_blank (split NL markdown) = false → _postprocess markdown = markdown.
Proof.
  intros H. rewrite postprocess_collapse, collapse_id by done.
  apply join_split.
Qed.

Lemma collapse_zip prev lines :
  collapse prev lines
  = (filter (λ p : bool * str, (is_blank p.2 && p.1) = false)
            (zip (prev :: (is_blank <$> lines)) lines)).*2.
Proof.
  revert prev. induction lines as [|line rest IH]; intros prev; [done|].
  cbn [collapse fmap list_fmap zip zip_with]. rewrite filter_cons. cbn [fst snd].
  destruct (is_blank line) eqn:Hb, prev; cbn [andb].
  - rewrite decide_False by done. by rewrite IH.
  - rewrite decide_True by done. by rewrite fmap_cons, IH.
  - rewrite decide_True by done. by rewrite fmap_cons, IH.
  - rewrite decide_True by done. by rewrite fmap_cons, IH.
Qed.

Lemma collapse_empty_run prev k rest :
  collapse prev (repeat [] (S k) ++ rest) = collapse prev ([] :: rest).
Proof.
  induction k as [|k IH]; [done|].
  change (repeat [] (S (S k)) ++ rest)
    with ([] :: [] :: repeat ([] : str) k ++ rest).
  rewrite collapse_two_empty. exact IH.
Qed.

Lemma collapse_first prev lines :
  head_blank lines = false → collapse prev lines = collapse false lines.
Proof.
  destruct lines as [|line rest]; [done|]. cbn [head_blank collapse].
  by intros ->.
Qed.

Lemma join_app sep xs ys :
  xs ≠ [] → ys ≠ [] →
  join sep (xs ++ ys) = join sep xs ++ sep ++ join sep ys.
Proof.
  intros Hxs Hys. induction xs as [|x [|x' xs] IH]; [done|..].
  - destruct ys; done.
  - change (join sep ((x :: x' :: xs) ++ ys))
      with (x ++ sep ++ join sep ((x' :: xs) ++ ys)).
    rewrite IH by done.
    change (join sep (x :: x' :: xs)) with (x ++ sep ++ join sep (x' :: xs)).
    by rewrite <- !app_assoc.
Qed.

End postprocess_lemmas.

Section store_lemmas.

Lemma bind_run {A B} (m : M A) (f : A → M B) σ :
  (m ≫= f) σ = match m σ with
               | (Return a, σ') => f a σ'
               | (Raise e, σ') => (Raise e, σ')
               end.
Proof. reflexivity. Qed.

Lemma ret_run {A} (a : A) (σ : store) : (mret a : M A) σ = (Return a, σ).
Proof. reflexivity. Qed.

Lemma alloc_run o (σ : store) :
  alloc o σ = (Return (fresh (dom σ)), <[fresh (dom σ) := o]> σ).
Proof. reflexivity. Qed.

Lemma fresh_lookup (σ : store) : σ !! fresh (dom σ) = None.
Proof. apply not_elem_of_dom, is_fresh. Qed.

Lemma read_dict_run l d (σ : store) :
  σ !! l = Some (ODict d) → read_dict l σ = (Return d, σ).
Proof. intros H. unfold read_dict. by rewrite H. Qed.

Lemma dict_pop_run l key default_ d (σ : store) :
  σ !! l = Some (ODict d) →
  dict_pop l key default_ σ
  = (Return (default default_ (d !! key)), <[l := ODict (delete key d)]> σ).
Proof.
  intros H. unfold dict_pop. rewrite bind_run, (read_dict_run _ _ _ H).
  destruct (d !! key) as [v|] eqn:Hk; simpl; [done|].
  rewrite delete_id by done. by rewrite insert_id.
Qed.

Lemma dict_update_run l other d (σ : store) :
  σ !! l = Some (ODict d) →
  dict_update l other σ = (Return (), <[l := ODict (other ∪ d)]> σ).
Proof.
  intros H. unfold dict_update. by rewrite bind_run, (read_dict_run _ _ _ H).
Qed.

Lemma get_rules_run l rs (σ : store) :
  σ !! l = Some (ORegistry rs) → RuleRegistry.get_rules l σ = (Return rs, σ).
Proof. intros H. unfold RuleRegistry.get_rules. by rewrite H. Qed.

Lemma add_run l name rule rs (σ : store) :
  σ !! l = Some (ORegistry rs) →
  RuleRegistry.add l name rule σ
  = (Return (), <[l := ORegistry (rs ++ [(name, rule)])]> σ).
Proof.
  intros H. unfold RuleRegistry.add.
  by rewrite bind_run, (get_rules_run _ _ _ H).
Qed.

Lemma insert_run l name rule index rs (σ : store) :
  σ !! l = Some (ORegistry rs) →
  RuleRegistry.insert l name rule index σ
  = (Return (),
     <[l := ORegistry (take index rs ++ (name, rule) :: drop index rs)]> σ).
Proof.
  intros H. unfold RuleRegistry.insert.
  by rewrite bind_run, (get_rules_run _ _ _ H).
Qed.

Lemma register_default_rules_run self rs (σ : store) :
  σ !! rules self = Some (ORegistry rs) →
  _register_default_rules self σ
  = (Return (), <[rules self := ORegistry (rs ++ default_rules)]> σ).
Proof.
  intros H. unfold _register_default_rules, register_rule.
  repeat (rewrite bind_run;
          erewrite add_run by (first [exact H | apply lookup_insert_eq]);
          rewrite ?insert_insert_eq, <- ?app_assoc; simpl).
  erewrite add_run by apply lookup_insert_eq.
  by rewrite insert_insert_eq, <- app_assoc.
Qed.

Lemma service_init_run l d (σ : store) :
  σ !! l = Some (ODict d) →
  ∃ self σ',
    Html2MarkdownService.__init__ (Some l) σ = (Return self, σ')
    ∧ σ' !! options self = Some (ODict d)
    ∧ σ' !! rules self = Some (ORegistry default_rules)
    ∧ σ !! rules self = None
    ∧ (d ≠ ∅ → options self = l)
    ∧ (options self = l ∨ σ !! options self = None)
    ∧ σ ⊆ σ'.
Proof.
  intros H. unfold Html2MarkdownService.__init__, or_new_dict, dict_truthy.
  rewrite !bind_run, (read_dict_run _ _ _ H), ret_run. cbv beta iota.
  case_bool_decide as Hd.
  - unfold RuleRegistry.new. rewrite ret_run, bind_run, alloc_run.
    cbv beta iota.
    pose proof (fresh_lookup σ) as Hf. set (r := fresh (dom σ)) in *.
    clearbody r.
    rewrite bind_run.
    erewrite register_default_rules_run by apply lookup_insert_eq.
    rewrite insert_insert_eq, ret_run.
    eexists _, _. split; [done|]. simpl.
    assert (l ≠ r) by congruence.
    rewrite lookup_insert_ne, lookup_insert_eq by done.
    split_and!; try done; [by left|]. by apply insert_subseteq.
  - assert (d = ∅) as -> by (by destruct (decide (d = ∅))).
    unfold new_dict. rewrite alloc_run. cbv beta iota.
    pose proof (fresh_lookup σ) as Hf. set (o := fresh (dom σ)) in *.
    clearbody o.
    unfold RuleRegistry.new. rewrite bind_run, alloc_run. cbv beta iota.
    pose proof (fresh_lookup (<[o:=ODict ∅]> σ)) as Hr.
    set (r := fresh (dom (<[o:=ODict ∅]> σ))) in *. clearbody r.
    rewrite bind_run.
    erewrite register_default_rules_run by apply lookup_insert_eq.
    rewrite insert_insert_eq, ret_run.
    eexists _, _. split; [done|]. simpl.
    assert (o ≠ r) by (intros ->; by rewrite lookup_insert_eq in Hr).
    rewrite lookup_insert_ne in Hr by done.
    rewrite lookup_insert_ne, !lookup_insert_eq by done.
    split_and!; try done; [by right|].
    etrans; [apply (insert_subseteq σ o); done|].
    apply insert_subseteq. by rewrite lookup_insert_ne.
Qed.

End store_lemmas.

Import Html2MarkdownConverter.

Section converter_lemmas.

Lemma or_new_dict_run arg u (σ : store) :
  given σ arg u →
  ∃ l σ1,
    or_new_dict arg σ = (Return l, σ1)
    ∧ σ1 !! l = Some (ODict u)
    ∧ (∀ x, σ1 !! x = None → σ !! x = None).
Proof.
  destruct arg as [l|]; simpl; intros H.
  - unfold dict_truthy. rewrite !bind_run, (read_dict_run _ _ _ H), ret_run.
    cbv beta iota. case_bool_decide as Hd.
    + rewrite ret_run. by eexists _, _.
    + assert (u = ∅) as -> by (by destruct (decide (u = ∅))).
      unfold new_dict. rewrite alloc_run. eexists _, _. split; [done|].
      rewrite lookup_insert_eq. split; [done|].
      intros x Hx. by apply lookup_insert_None in Hx as [? _].
  - subst u. unfold new_dict. rewrite alloc_run. eexists _, _.
    split; [done|]. rewrite lookup_insert_eq. split; [done|].
    intros x Hx. by apply lookup_insert_None in Hx as [? _].
Qed.

Lemma converter_init_run arg u name (σ : store) :
  given σ arg u →
  default (VStr "github") (u !! "dialect") = VStr name →
  ∃ self σ',
    __init__ arg σ = (Return self, σ')
    ∧ σ' !! options (service self)
      = Some (ODict (delete "dialect" u ∪ default ∅ (dialect_options !! name)))
    ∧ σ' !! rules (service self) = Some (ORegistry default_rules)
    ∧ σ !! options (service self) = None
    ∧ σ !! rules (service self) = None.
Proof.
  intros Hgiven Hname. unfold __init__.
  destruct (or_new_dict_run _ _ _ Hgiven) as (l & σ1 & Hnew & Hl & Hσ1).
  rewrite bind_run, Hnew. cbv beta iota.
  rewrite bind_run, (dict_pop_run _ _ _ _ _ Hl), Hname. cbv beta iota.
  set (σ2 := <[l:=ODict (delete "dialect" u)]> σ1).
  rewrite bind_run. unfold _get_dialect_options, new_dict.
  rewrite alloc_run. cbv beta iota.
  pose proof (fresh_lookup σ2) as Hp. set (p := fresh (dom σ2)) in *.
  clearbody p.
  set (preset := default ∅ (dialect_options !! name)).
  assert (l ≠ p) as Hlp.
  { intros ->. unfold σ2 in Hp. by rewrite lookup_insert_eq in Hp. }
  rewrite bind_run.
  erewrite read_dict_run
    by (rewrite lookup_insert_ne by done; apply lookup_insert_eq).
  cbv beta iota.
  set (merged := delete "dialect" u ∪ preset).
  assert (∃ σ4, (if bool_decide (delete "dialect" u ≠ ∅)
                 then dict_update p (delete "dialect" u)
                 else mret ()) (<[p:=ODict preset]> σ2) = (Return (), σ4)
                ∧ σ4 !! p = Some (ODict merged)
                ∧ (∀ x, σ4 !! x = None → σ2 !! x = None))
    as (σ4 & Hrun & Hσ4 & Hnone).
  { case_bool_decide as Hd.
    - erewrite dict_update_run by apply lookup_insert_eq.
      eexists. split; [done|]. rewrite insert_insert_eq, lookup_insert_eq.
      split; [done|]. intros x Hx. by apply lookup_insert_None in Hx as [? _].
    - assert (delete "dialect" u = ∅) as Hempty
          by (by destruct (decide (delete "dialect" u = ∅))).
      eexists. split; [done|]. rewrite lookup_insert_eq.
      unfold merged. rewrite Hempty, (left_id_L ∅ (∪)). split; [done|].
      intros x Hx. by apply lookup_insert_None in Hx as [? _]. }
  rewrite bind_run, Hrun. cbv beta iota.
  destruct (service_init_run _ _ _ Hσ4)
    as (self & σ' & Hinit & Hopts & Hrules & Hrfresh & _ & Hofresh & _).
  rewrite bind_run, Hinit, ret_run.
  assert (∀ x, σ4 !! x = None → σ !! x = None) as Hback.
  { intros x Hx. apply Hσ1. apply Hnone in Hx. unfold σ2 in Hx.
    by apply lookup_insert_None in Hx as [? _]. }
  eexists _, _. split; [done|]. simpl. split_and!; try done.
  - destruct Hofresh as [->|Ho]; [|by apply Hback].
    apply Hσ1. unfold σ2 in Hp. by apply lookup_insert_None in Hp as [? _].
  - by apply Hback.
Qed.

End converter_lemmas.

Section frame_lemmas.

Lemma text_rule_index_first before text_rule after i :
  "text" ∉ before.*1 →
  text_rule_index (before ++ ("text", text_rule) :: after) i
  = (i + Z.of_nat (length before))%Z.
Proof.
  revert i. induction before as [|[n r] before IH]; intros i Hn; simpl.
  - lia.
  - rewrite fmap_cons, not_elem_of_cons in Hn. destruct Hn as [Hne Hn].
    destruct (String.eqb_spec n "text") as [->|_]; [done|].
    rewrite IH by done. lia.
Qed.

Lemma first_text_split (rules : list (string * Rule)) :
  "text" ∈ rules.*1 →
  ∃ before text_rule after,
    rules = before ++ ("text", text_rule) :: after ∧ "text" ∉ before.*1.
Proof.
  induction rules as [|[n r] rules IH]; intros Hin; [by apply elem_of_nil in Hin|].
  destruct (decide (n = "text")) as [->|Hne].
  - exists [], r, rules. split; [done|]. apply not_elem_of_nil.
  - rewrite fmap_cons in Hin. apply elem_of_cons in Hin as [Heq|Hin]; [done|].
    destruct (IH Hin) as (before & text_rule & after & -> & Hfirst).
    exists ((n, r) :: before), text_rule, after. split; [done|].
    rewrite fmap_cons. apply not_elem_of_cons. by split.
Qed.

(** No call of [register_rule] touches the options of the service. *)
Lemma register_rule_options self name rule priority d (τ : store) :
  τ !! options (service self) = Some (ODict d) →
  (register_rule self name rule priority τ).2 !! options (service self)
  = Some (ODict d).
Proof.
  intros Hd. unfold register_rule, Html2MarkdownService.register_rule.
  destruct (τ !! rules (service self)) as [[?|?|rs]|] eqn:Hr.
  1,2,4: by destruct priority; unfold RuleRegistry.add, RuleRegistry.insert;
    rewrite !bind_run; unfold RuleRegistry.get_rules; rewrite Hr.
  assert (rules (service self) ≠ options (service self)) by congruence.
  destruct priority.
  - rewrite (add_run _ _ _ _ _ Hr). simpl. by rewrite lookup_insert_ne.
  - rewrite bind_run, (get_rules_run _ _ _ Hr). cbv beta iota.
    case_match.
    + rewrite (insert_run _ _ _ _ _ _ Hr). simpl. by rewrite lookup_insert_ne.
    + rewrite (add_run _ _ _ _ _ Hr). simpl. by rewrite lookup_insert_ne.
Qed.

Variable turndown : Service → str → store → outcome str.
Variable format : store → val → str.

(** What [convert_html] does when options are passed along. *)
Lemma convert_html_overrides_run self html kwargs d (σ : store) :
  let kwargs' := delete "fragment_root" (delete "fragment" kwargs) in
  σ !! options (service self) = Some (ODict d) →
  kwargs' ≠ ∅ →
  ∃ temp_service html' σ',
    convert_html turndown format self html kwargs σ
    = (turndown temp_service html' σ', σ')
    ∧ σ !! options temp_service = None
    ∧ σ !! rules temp_service = None
    ∧ σ' !! options temp_service = Some (ODict (kwargs' ∪ d))
    ∧ σ' !! rules temp_service = Some (ORegistry default_rules)
    ∧ σ ⊆ σ'.
Proof.
  intros kwargs' Hd Hkw. unfold convert_html. fold kwargs'.
  rewrite bind_run. unfold inspect at 1. cbv beta iota.
  rewrite bind_run. unfold inspect at 1. cbv beta iota.
  rewrite bool_decide_eq_true_2 by done.
  set (html' := if truthy σ _ then _ else _).
  unfold dict_copy, new_dict.
  rewrite !bind_run, (read_dict_run _ _ _ Hd), alloc_run. cbv beta iota.
  pose proof (fresh_lookup σ) as Hc. set (c := fresh (dom σ)) in *.
  clearbody c.
  rewrite bind_run.
  erewrite dict_update_run by apply lookup_insert_eq.
  rewrite insert_insert_eq. cbv beta iota. rewrite bind_run.
  destruct (service_init_run c (kwargs' ∪ d) (<[c:=ODict (kwargs' ∪ d)]> σ))
    as (temp & σ' & Hinit & Hopts & Hrules & Hrfresh & Hsame & _ & Hsub).
  { apply lookup_insert_eq. }
  rewrite Hinit. unfold inspect.
  assert (kwargs' ∪ d ≠ ∅) as Hne.
  { intros Hu. apply Hkw. by eapply map_positive_l. }
  specialize (Hsame Hne).
  exists temp, html', σ'. split; [done|]. rewrite Hsame in *.
  apply lookup_insert_None in Hrfresh as [Hrfresh _].
  split_and!; try done.
  etrans; [by apply (insert_subseteq σ c)|done].
Qed.

(** [convert_html] only adds objects to the store. *)
Lemma convert_html_frame self html kwargs (σ : store) :
  σ ⊆ (convert_html turndown format self html kwargs σ).2.
Proof.
  destruct (decide (delete "fragment_root" (delete "fragment" kwargs) = ∅))
    as [Hkw|Hkw].
  - unfold convert_html. rewrite Hkw.
    rewrite bind_run. unfold inspect at 1. cbv beta iota.
    rewrite bind_run. unfold inspect at 1. cbv beta iota.
    rewrite bool_decide_eq_false_2 by naive_solver. done.
  - destruct (σ !! options (service self)) as [[d|?|?]|] eqn:Hd.
    { destruct (convert_html_overrides_run self html kwargs d σ Hd Hkw)
        as (? & ? & ? & -> & _ & _ & _ & _ & Hsub). done. }
    all: unfold convert_html;
      rewrite bind_run; unfold inspect at 1; cbv beta iota;
      rewrite bind_run; unfold inspect at 1; cbv beta iota;
      rewrite bool_decide_eq_true_2 by done;
      unfold dict_copy; rewrite !bind_run; unfold read_dict; rewrite Hd; done.
Qed.

End frame_lemmas.

Section tree_lemmas.

Lemma Node_forall_ind (P : Node → Prop) :
  (∀ i name attrs contents,
      Forall P contents → P (Tag i name attrs contents)) →
  (∀ i s, P (NavigableString i s)) →
  (∀ i s, P (Comment i s)) →
  ∀ n, P n.
Proof.
  intros Htag Hstr Hcom. fix IH 1.
  intros [i name attrs contents|i s|i s]; [|apply Hstr|apply Hcom].
  apply Htag. induction contents as [|c contents IHc]; constructor.
  - apply IH.
  - exact IHc.
Qed.

Lemma descendants_eq n :
  descendants n = n :: flat_map descendants (contents_of n).
Proof. by destruct n. Qed.

Lemma erase_fresh D n :
  node_id n ∉ D → erase D n = [erase_below D n].
Proof.
  intros H. destruct n; simpl; by rewrite bool_decide_eq_false_2.
Qed.

Lemma erase_member D n : node_id n ∈ D → erase D n = [].
Proof.
  intros H. destruct n; simpl; by rewrite bool_decide_eq_true_2.
Qed.

Lemma flat_map_forall_ext {A B} (f g : A → list B) l :
  Forall (λ x, f x = g x) l → flat_map f l = flat_map g l.
Proof. induction 1 as [|x l Hx _ IH]; simpl; [done|]. by rewrite Hx, IH. Qed.

Lemma without_erase_one i n : without i n = erase [i] n.
Proof.
  induction n as [j name attrs contents IH|j s|j s] using Node_forall_ind;
    cbn [without erase];
    rewrite (bool_decide_ext _ (_ ∈ [i])) by (by rewrite list_elem_of_singleton);
    [|done..].
  destruct (bool_decide _); [done|]. do 2 f_equal.
  by apply flat_map_forall_ext.
Qed.

Lemma erase_erase D D' n :
  flat_map (erase D') (erase D n) = erase (D ++ D') n.
Proof.
  induction n as [j name attrs contents IH|j s|j s] using Node_forall_ind.
  - destruct (decide (j ∈ D)) as [Hin|Hout].
    { rewrite !erase_member; [done|set_solver|done]. }
    rewrite (erase_fresh D) by done.
    cbn [flat_map]. rewrite app_nil_r.
    destruct (decide (j ∈ D')) as [Hin'|Hout'].
    { rewrite !erase_member; [done|set_solver|done]. }
    rewrite !erase_fresh by set_solver. cbn [erase_below]. do 2 f_equal.
    clear Hout Hout'.
    induction IH as [|c contents Hc _ IHc]; cbn [flat_map]; [done|].
    by rewrite flat_map_app, Hc, IHc.
  - destruct (decide (j ∈ D)) as [Hin|Hout].
    { rewrite !erase_member; [done|set_solver|done]. }
    rewrite (erase_fresh D) by done. cbn [flat_map]. rewrite app_nil_r.
    destruct (decide (j ∈ D')) as [Hin'|Hout'].
    { rewrite !erase_member; [done|set_solver|done]. }
    by rewrite !erase_fresh by set_solver.
  - destruct (decide (j ∈ D)) as [Hin|Hout].
    { rewrite !erase_member; [done|set_solver|done]. }
    rewrite (erase_fresh D) by done. cbn [flat_map]. rewrite app_nil_r.
    destruct (decide (j ∈ D')) as [Hin'|Hout'].
    { rewrite !erase_member; [done|set_solver|done]. }
    by rewrite !erase_fresh by set_solver.
Qed.

(** Removing [i] after the nodes of [D] removes the nodes of [D ++ [i]]. *)
Lemma decompose_erase i D soup :
  decompose i (flat_map (erase D) soup) = flat_map (erase (D ++ [i])) soup.
Proof.
  unfold decompose. induction soup as [|n soup IH]; cbn [flat_map]; [done|].
  rewrite flat_map_app, IH. f_equal.
  rewrite <- erase_erase. apply flat_map_forall_ext, Forall_forall.
  intros m _. apply without_erase_one.
Qed.

Lemma erase_nil_node n : erase [] n = [n].
Proof.
  induction n as [j name attrs contents IH|j s|j s] using Node_forall_ind;
    rewrite erase_fresh by set_solver; [|done..].
  cbn [erase_below]. do 2 f_equal.
  induction IH as [|c contents Hc _ IHc]; cbn [flat_map]; [done|].
  by rewrite Hc, IHc.
Qed.

Lemma erase_nil soup : flat_map (erase []) soup = soup.
Proof.
  induction soup as [|n soup IH]; simpl; [done|].
  by rewrite erase_nil_node, IH.
Qed.

(** Nodes of other identities are left as they are. *)
Lemma erase_disjoint_node D n :
  (∀ m, m ∈ descendants n → node_id m ∉ D) → erase D n = [n].
Proof.
  induction n as [j name attrs contents IH|j s|j s] using Node_forall_ind;
    intros Hd.
  - rewrite erase_fresh by (apply Hd; simpl; set_solver). simpl.
    do 2 f_equal.
    assert (∀ m, m ∈ flat_map descendants contents → node_id m ∉ D) as Hc.
    { intros m Hm. apply Hd. simpl. set_solver. }
    clear Hd. induction IH as [|c contents Hc' _ IHc]; simpl; [done|].
    simpl in Hc. rewrite Hc', IHc; [done|..];
      intros m Hm; apply Hc; set_solver.
  - rewrite erase_fresh; [done|]. apply Hd. simpl. set_solver.
  - rewrite erase_fresh; [done|]. apply Hd. simpl. set_solver.
Qed.

Lemma erase_disjoint D soup :
  (∀ m, m ∈ flat_map descendants soup → node_id m ∉ D) →
  flat_map (erase D) soup = soup.
Proof.
  induction soup as [|n soup IH]; simpl; intros Hd; [done|].
  rewrite erase_disjoint_node, IH; [done|..];
    intros m Hm; apply Hd; set_solver.
Qed.

End tree_lemmas.

Section pass_lemmas.

Lemma app_eq_middle {A} (l1 l2 a b : list A) (x : A) :
  l1 ++ l2 = a ++ x :: b →
  (∃ b1, l1 = a ++ x :: b1 ∧ b = b1 ++ l2)
  ∨ (∃ a2, a = l1 ++ a2 ∧ l2 = a2 ++ x :: b).
Proof.
  revert a. induction l1 as [|y l1 IH]; intros a H.
  - right. by exists a.
  - destruct a as [|z a]; simpl in H; injection H as -> H.
    + left. by exists l1.
    + destruct (IH _ H) as [(b1 & -> & ->)|(a2 & -> & ->)].
      * left. by exists b1.
      * right. by exists a2.
Qed.

Lemma NoDup_fmap_same {A B} (f : A → B) (l : list A) x y :
  NoDup (f <$> l) → x ∈ l → y ∈ l → f x = f y → x = y.
Proof.
  induction l as [|z l IH]; intros Hnd Hx Hy Hf; [set_solver|].
  rewrite fmap_cons in Hnd. apply NoDup_cons in Hnd as [Hz Hnd].
  apply elem_of_cons in Hx as [->|Hx], Hy as [->|Hy]; [done|..].
  - exfalso. apply Hz. rewrite Hf. by apply list_elem_of_fmap_2.
  - exfalso. apply Hz. rewrite <- Hf. by apply list_elem_of_fmap_2.
  - by apply IH.
Qed.

(** In document order, what is below a node comes right after it. *)
Lemma descendants_follow_node n0 a n b :
  descendants n0 = a ++ n :: b →
  ∃ b', b = flat_map descendants (contents_of n) ++ b'.
Proof.
  revert a b.
  induction n0 as [j name attrs contents IH|j s|j s] using Node_forall_ind;
    intros a b H; rewrite descendants_eq in H; cbn [contents_of] in H.
  - destruct a as [|z a]; simpl in H; injection H as <- H.
    { exists []. by rewrite app_nil_r. }
    clear j name attrs. revert a b H.
    induction IH as [|c contents Hc _ IHc]; intros a b H.
    { by destruct a. }
    cbn [flat_map] in H.
    apply app_eq_middle in H as [(b1 & H & ->)|(a2 & -> & H)].
    + destruct (Hc _ _ H) as [b' ->]. exists (b' ++ flat_map descendants contents).
      by rewrite app_assoc.
    + by eapply IHc.
  - destruct a as [|z [|??]]; simplify_eq/=. by exists [].
  - destruct a as [|z [|??]]; simplify_eq/=. by exists [].
Qed.

Lemma descendants_follow soup a n b :
  flat_map descendants soup = a ++ n :: b →
  ∃ b', b = flat_map descendants (contents_of n) ++ b'.
Proof.
  revert a b. induction soup as [|c soup IH]; intros a b H.
  { by destruct a. }
  cbn [flat_map] in H.
  apply app_eq_middle in H as [(b1 & H & ->)|(a2 & -> & H)].
  - destruct (descendants_follow_node _ _ _ _ H) as [b' ->].
    exists (b' ++ flat_map descendants soup). by rewrite app_assoc.
  - by eapply IH.
Qed.

(** A node of another identity than those removed is found as before, with
    what is below it reduced. *)
Lemma filter_erase_node D i n :
  (∀ m, m ∈ descendants n → node_id m ∈ D →
        contents_of m = [] ∧ node_id m ≠ i) →
  filter (λ m, node_id m = i) (flat_map descendants (erase D n))
  = erase_below D <$> filter (λ m, node_id m = i) (descendants n).
Proof.
  induction n as [j name attrs contents IH|j s|j s] using Node_forall_ind;
    intros Hd.
  - destruct (decide (j ∈ D)) as [Hin|Hout].
    + rewrite erase_member by done.
      destruct (Hd (Tag j name attrs contents)) as [Hc Hne];
        [rewrite descendants_eq; set_solver|done|].
      cbn [contents_of] in Hc. subst contents. cbn [descendants flat_map].
      rewrite filter_cons_False by done. done.
    + rewrite erase_fresh by done. cbn [flat_map]. rewrite app_nil_r.
      rewrite !descendants_eq. cbn [erase_below contents_of].
      rewrite !filter_cons. cbn [node_id].
      assert (filter (λ m, node_id m = i)
                (flat_map descendants (flat_map (erase D) contents))
              = erase_below D <$> filter (λ m, node_id m = i)
                                    (flat_map descendants contents)) as ->.
      { assert (∀ m, m ∈ flat_map descendants contents → node_id m ∈ D →
                     contents_of m = [] ∧ node_id m ≠ i) as Hc.
        { intros m Hm. apply Hd. rewrite descendants_eq. set_solver. }
        clear Hd Hout.
        induction IH as [|c contents Hc' _ IHc]; [done|].
        cbn [flat_map] in *.
        rewrite !flat_map_app, !filter_app, fmap_app, Hc', IHc; [done|..];
          intros m Hm; apply Hc; set_solver. }
      by destruct (decide (j = i)).
  - destruct (decide (j ∈ D)) as [Hin|Hout].
    + rewrite erase_member by done.
      destruct (Hd (NavigableString j s)) as [_ Hne]; [set_solver|done|].
      cbn [descendants flat_map]. by rewrite filter_cons_False.
    + rewrite erase_fresh by done.
      cbn [flat_map erase_below descendants app].
      rewrite !filter_cons. cbn [node_id]. by destruct (decide (j = i)).
  - destruct (decide (j ∈ D)) as [Hin|Hout].
    + rewrite erase_member by done.
      destruct (Hd (Comment j s)) as [_ Hne]; [set_solver|done|].
      cbn [descendants flat_map]. by rewrite filter_cons_False.
    + rewrite erase_fresh by done.
      cbn [flat_map erase_below descendants app].
      rewrite !filter_cons. cbn [node_id]. by destruct (decide (j = i)).
Qed.

Lemma filter_erase D i soup :
  (∀ m, m ∈ flat_map descendants soup → node_id m ∈ D →
        contents_of m = [] ∧ node_id m ≠ i) →
  filter (λ m, node_id m = i) (flat_map descendants (flat_map (erase D) soup))
  = erase_below D <$> filter (λ m, node_id m = i) (flat_map descendants soup).
Proof.
  induction soup as [|c soup IH]; intros Hd; [done|].
  cbn [flat_map] in *.
  rewrite !flat_map_app, !filter_app, fmap_app, filter_erase_node, IH;
    [done|..]; intros m Hm; apply Hd; set_solver.
Qed.

Lemma removable_contents n : removable n = true → contents_of n = [].
Proof. by destruct n as [? ? ? [|]| |]. Qed.

Lemma removable_ids_elem nodes i :
  i ∈ removable_ids nodes
  ↔ ∃ m, m ∈ nodes ∧ removable m = true ∧ node_id m = i.
Proof.
  unfold removable_ids. rewrite list_elem_of_fmap. split.
  - intros (m & -> & Hm). apply list_elem_of_filter in Hm as [? ?]. eauto.
  - intros (m & Hm & Hr & <-). exists m. split; [done|].
    by apply list_elem_of_filter.
Qed.

(** Removing the nodes that are removable is pruning. *)
Lemma erase_prune_node D n :
  (∀ m, m ∈ descendants n → node_id m ∈ D ↔ removable m = true) →
  erase D n = prune n.
Proof.
  induction n as [j name attrs contents IH|j s|j s] using Node_forall_ind;
    intros Hd.
  - pose proof (Hd (Tag j name attrs contents)) as Hn.
    rewrite descendants_eq in Hn. specialize (Hn ltac:(set_solver)).
    cbn [prune]. destruct (removable _) eqn:Hr.
    + apply erase_member. by apply Hn.
    + rewrite erase_fresh by (rewrite Hn; done). cbn [erase_below].
      do 2 f_equal.
      assert (∀ m, m ∈ flat_map descendants contents →
                   node_id m ∈ D ↔ removable m = true) as Hc.
      { intros m Hm. apply Hd. rewrite descendants_eq. set_solver. }
      clear Hd Hn Hr.
      induction IH as [|c contents Hc' _ IHc]; [done|].
      cbn [flat_map] in *. rewrite Hc', IHc; [done|..];
        intros m Hm; apply Hc; set_solver.
  - pose proof (Hd (NavigableString j s) ltac:(set_solver)) as Hn.
    cbn [prune removable]. apply erase_fresh. rewrite Hn. done.
  - pose proof (Hd (Comment j s) ltac:(set_solver)) as Hn.
    cbn [prune removable]. apply erase_fresh. rewrite Hn. done.
Qed.

Lemma erase_prune D soup :
  (∀ m, m ∈ flat_map descendants soup →
        node_id m ∈ D ↔ removable m = true) →
  flat_map (erase D) soup = flat_map prune soup.
Proof.
  induction soup as [|c soup IH]; intros Hd; [done|].
  cbn [flat_map] in *. rewrite erase_prune_node, IH; [done|..];
    intros m Hm; apply Hd; set_solver.
Qed.

End pass_lemmas.

Section pass_run.

Lemma removable_ids_snoc a n :
  removable_ids (a ++ [n])
  = removable_ids a ++ (if removable n then [node_id n] else []).
Proof.
  unfold removable_ids. rewrite filter_app, fmap_app. f_equal.
  rewrite filter_cons. destruct (removable n); by case_decide.
Qed.

Lemma filter_none {A} (P : A → Prop) `{∀ x, Decision (P x)} (l : list A) :
  (∀ x, x ∈ l → ¬ P x) → filter P l = [].
Proof.
  induction l as [|x l IH]; intros Hl; [done|].
  rewrite filter_cons_False by (apply Hl; left).
  apply IH. intros y Hy. apply Hl. by right.
Qed.

(** The loop, half way: [a] has been visited, [b] is still to come, and so
    far the removable nodes of [a] have left the tree. *)
Lemma remove_empty_loop soup a b :
  NoDup (node_id <$> flat_map descendants soup) →
  flat_map descendants soup = a ++ b →
  fold_left remove_empty_step
    (node_id <$> filter (λ n, is_tag n = true) b)
    (flat_map (erase (removable_ids a)) soup)
  = flat_map (erase (removable_ids (a ++ b))) soup.
Proof.
  intros Hnd. revert a. induction b as [|n b IH]; intros a Hsplit.
  { by rewrite app_nil_r. }
  assert (flat_map descendants soup = (a ++ [n]) ++ b) as Hsplit'.
  { by rewrite <- app_assoc. }
  rewrite (cons_middle n a b), app_assoc. rewrite <- (IH _ Hsplit').
  rewrite filter_cons. destruct (is_tag n) eqn:Htag.
  2:{ rewrite decide_False by done. rewrite removable_ids_snoc.
      assert (removable n = false) as -> by (by destruct n).
      by rewrite app_nil_r. }
  rewrite decide_True by done. rewrite fmap_cons. cbn [fold_left].
  f_equal.
  (* the identities of [a], [n] and [b] are apart *)
  rewrite Hsplit, fmap_app, fmap_cons in Hnd.
  apply NoDup_app in Hnd as (Hnda & Hab & Hndb).
  apply NoDup_cons in Hndb as [Hnb Hndb].
  assert (node_id n ∉ node_id <$> a) as Hna.
  { intros Hin. apply (Hab _ Hin). left. }
  assert (∀ i, i ∈ removable_ids a → i ∈ node_id <$> a) as Hsub.
  { intros i Hi. apply removable_ids_elem in Hi as (m & Hm & _ & <-).
    by apply list_elem_of_fmap_2. }
  (* the tag is found as it was at the start *)
  assert (get_node (node_id n) (flat_map (erase (removable_ids a)) soup)
          = Some n) as Hget.
  { unfold get_node. rewrite filter_erase.
    - rewrite Hsplit, filter_app, filter_cons, decide_True by done.
      assert (filter (λ m, node_id m = node_id n) a = []) as ->.
      { apply filter_none. intros m Hm Heq.
        apply Hna. rewrite <- Heq. by apply list_elem_of_fmap_2. }
      assert (filter (λ m, node_id m = node_id n) b = []) as ->.
      { apply filter_none. intros m Hm Heq.
        apply Hnb. rewrite <- Heq. by apply list_elem_of_fmap_2. }
      cbn. f_equal.
      destruct (descendants_follow _ _ _ _ Hsplit) as [b' ->].
      destruct n as [j name attrs contents| |]; [|done..].
      cbn [erase_below contents_of] in *. f_equal.
      apply erase_disjoint. intros m Hm Hin.
      apply Hsub in Hin. apply (Hab _ Hin). right.
      apply list_elem_of_fmap_2. set_solver.
    - intros m Hm Hin.
      apply removable_ids_elem in Hin as (m' & Hm' & Hr & Heq).
      rewrite Hsplit in Hm.
      apply elem_of_app in Hm as [Hm|Hm].
      + assert (m' = m) as ->.
        { by apply (NoDup_fmap_same node_id a). }
        split; [by apply removable_contents|].
        intros Hid. apply Hna. rewrite <- Hid. by apply list_elem_of_fmap_2.
      + exfalso. apply (Hab (node_id m)).
        * rewrite <- Heq. by apply list_elem_of_fmap_2.
        * change (node_id n :: (node_id <$> b)) with (node_id <$> n :: b).
          by apply list_elem_of_fmap_2. }
  unfold remove_empty_step. rewrite Hget.
  rewrite removable_ids_snoc.
  destruct n as [j name attrs [|c contents]| |]; try done; cbn.
  - case_bool_decide; cbn.
    + by rewrite app_nil_r.
    + apply decompose_erase.
  - by rewrite app_nil_r.
Qed.

(** The pass over the empty tags removes the tags that are removable in
    the tree as the pass finds it. *)
Lemma remove_empty_tags_prune soup :
  NoDup (node_id <$> flat_map descendants soup) →
  remove_empty_tags soup = flat_map prune soup.
Proof.
  intros Hnd. unfold remove_empty_tags, find_all.
  rewrite <- (erase_nil soup) at 2.
  change [] with (removable_ids []).
  rewrite (remove_empty_loop soup [] _ Hnd eq_refl).
  rewrite app_nil_l. apply erase_prune. intros m Hm.
  rewrite removable_ids_elem. split.
  - intros (m' & Hm' & Hr & Heq).
    by rewrite <- (NoDup_fmap_same node_id _ m' m Hnd Hm' Hm Heq).
  - intros Hr. by exists m.
Qed.

End pass_run.

(** ** The blank-line clean-up: [Html2MarkdownService._postprocess] *)

(** C5: [_postprocess] keeps the lines of the text, in their order, but for
    every blank line that comes right after a blank line (a blank line
    being one that is empty once stripped): of a run of blank lines the
    first one is kept and no other.  So the text returned has no two blank
    lines in a row, hence no three line feeds in a row; a run of three or
    more line feeds gives what a run of two gives; and where the line
    before the run and the line after it are not blank, the run comes out
    as exactly two line feeds, one blank line, between what
    [_postprocess] makes of the text before and of the text after. *)
Theorem postprocess_collapses_blank_runs :
  (∀ markdown, adjacent_blank (split NL (_postprocess markdown)) = false)
  ∧ (∀ markdown, has_three_newlines (_postprocess markdown) = false)
  ∧ (∀ a b n, _postprocess (a ++ repeat NL (3 + n) ++ b)
              = _postprocess (a ++ [NL; NL] ++ b))
  ∧ (∀ markdown,
       _postprocess markdown
       = join [NL] (without_repeated_blank (split NL markdown)))
  ∧ (∀ a b n,
       last_blank (split NL a) = false →
       head_blank (split NL b) = false →
       _postprocess (a ++ repeat NL (3 + n) ++ b)
       = _postprocess a ++ [NL; NL] ++ _postprocess b).
Proof.
  split; [apply postprocess_no_adjacent|]. split; [|split; [|split]].
  - intros markdown.
    destruct (has_three_newlines (_postprocess markdown)) eqn:H; [|done].
    apply three_newlines_adjacent, adjacent_blank_tail in H.
    by rewrite postprocess_no_adjacent in H.
  - intros a b n. rewrite !postprocess_collapse. f_equal.
    change (repeat NL (3 + n) ++ b) with (NL :: repeat NL (2 + n) ++ b).
    change ([NL; NL] ++ b) with (NL :: repeat NL 1 ++ b).
    rewrite !split_app, !split_newlines.
    rewrite !(collapse_app _ (split NL a)). f_equal.
    apply (collapse_empty_run _ (S n)).
  - intros markdown. rewrite postprocess_collapse. f_equal.
    apply collapse_zip.
  - intros a b n Ha Hb. rewrite !postprocess_collapse.
    change (repeat NL (3 + n) ++ b) with (NL :: repeat NL (2 + n) ++ b).
    rewrite split_app, split_newlines, collapse_app.
    change (prev_after false (split NL a)) with (last_blank (split NL a)).
    rewrite Ha. rewrite (collapse_empty_run _ (S n)).
    change (collapse false ([] :: split NL b))
      with ([] :: collapse true (split NL b)).
    rewrite (collapse_first true) by done.
    rewrite join_app;
      [|apply collapse_nonempty, split_nonempty|done].
    pose proof (collapse_nonempty (split NL b) (split_nonempty NL b)) as Hne.
    destruct (collapse false (split NL b)) as [|line rest]; [done|].
    reflexivity.
Qed.

Lemma postprocess_collapses_blank_runs_witness :
  _postprocess (py "a" ++ repeat NL 4 ++ py "b")
  = _postprocess (py "a") ++ [NL; NL] ++ _postprocess (py "b").
Proof.
  apply (proj2 (proj2 (proj2 (proj2 postprocess_collapses_blank_runs)))
           (py "a") (py "b") 1).
  - reflexivity.
  - reflexivity.
Defined.

(** C6, where the claim fails: a text that ends in a line feed comes back
    as it is, so the result ends in white space. *)
Lemma postprocess_keeps_final_newline :
  _postprocess (py "a" ++ [NL]) = py "a" ++ [NL]
  ∧ ends_in_space (_postprocess (py "a" ++ [NL])) = true.
Proof. split; reflexivity. Qed.

(** C6, as amended: [_postprocess] does not trim.  A text with no two blank
    lines in a row is returned unchanged, whatever white space it ends in;
    what holds of every result is that it does not end in two line feeds. *)
Theorem postprocess_trailing_space (markdown : str) :
  ends_in_two_newlines (_postprocess markdown) = false
  ∧ (adjacent_blank (split NL markdown) = false →
     _postprocess markdown = markdown).
Proof.
  split; [|apply postprocess_fixed].
  pose proof (postprocess_no_adjacent markdown) as Hadj.
  unfold ends_in_two_newlines.
  destruct (rev (_postprocess markdown)) as [|a [|b r]] eqn:Hrev; [done..|].
  destruct (N.eqb_spec a NL) as [->|]; [|done].
  destruct (N.eqb_spec b NL) as [->|]; [|done].
  apply (f_equal (@rev N)) in Hrev. rewrite rev_involutive in Hrev.
  simpl in Hrev. rewrite <- !app_assoc in Hrev. simpl in Hrev.
  rewrite Hrev, split_app in Hadj.
  rewrite adjacent_blank_app in Hadj; done.
Qed.

Lemma postprocess_trailing_space_witness :
  ends_in_two_newlines (_postprocess (py "a  " ++ [NL])) = false
  ∧ _postprocess (py "a  " ++ [NL]) = py "a  " ++ [NL].
Proof.
  split.
  - apply (postprocess_trailing_space (py "a  " ++ [NL])).
  - apply (postprocess_trailing_space (py "a  " ++ [NL])). reflexivity.
Defined.

(** ** Construction of the converter: [Html2MarkdownConverter.__init__] *)

(** C4: a dialect name outside the table does not make the constructor
    fail; the lookup gives a new, empty dict, and the options of the service
    are the caller's own, the dialect key apart. *)
Theorem unknown_dialect_falls_back arg u name (σ : store) :
  given σ arg u →
  u !! "dialect" = Some (VStr name) →
  name ∉ ["commonmark"; "github"; "traditional"; "custom"] →
  _get_dialect_options (VStr name) σ = new_dict ∅ σ
  ∧ ∃ self σ',
      __init__ arg σ = (Return self, σ')
      ∧ σ' !! options (service self) = Some (ODict (delete "dialect" u)).
Proof.
  intros Hgiven Hdialect Hname.
  assert (dialect_options !! name = None) as Hnone.
  { apply not_elem_of_list_to_map_1. exact Hname. }
  split; [unfold _get_dialect_options; by rewrite Hnone|].
  destruct (converter_init_run arg u name σ Hgiven) as (self & σ' & Hrun & Ho & _).
  { by rewrite Hdialect. }
  exists self, σ'. split; [done|].
  rewrite Ho, Hnone. simpl. by rewrite (right_id_L ∅ (∪)).
Qed.

Lemma unknown_dialect_falls_back_witness :
  let u : gmap string val :=
    {[ "dialect" := VStr "pandoc"; "headingStyle" := VStr "setext" ]} in
  let σ : store := {[ 1%positive := ODict u ]} in
  _get_dialect_options (VStr "pandoc") σ = new_dict ∅ σ
  ∧ ∃ self σ',
      __init__ (Some 1%positive) σ = (Return self, σ')
      ∧ σ' !! options (service self) = Some (ODict (delete "dialect" u)).
Proof.
  intros u σ.
  apply (unknown_dialect_falls_back (Some 1%positive) u "pandoc" σ).
  - reflexivity.
  - reflexivity.
  - apply (bool_decide_unpack
             ("pandoc" ∉ ["commonmark"; "github"; "traditional"; "custom"])).
    vm_compute. exact I.
Defined.

(** C9: the constructor merges the preset the dialect names with the
    caller's options: a key the caller gives (the dialect key apart) has the
    caller's value, any other key has the preset's value.  The dict that
    holds the merged options is a new object, and no later call of
    [convert_html] or [register_rule] changes it. *)
Theorem init_merges_user_options arg u name (σ : store) :
  given σ arg u →
  default (VStr "github") (u !! "dialect") = VStr name →
  ∃ self σ' merged,
    __init__ arg σ = (Return self, σ')
    ∧ σ !! options (service self) = None
    ∧ σ' !! options (service self) = Some (ODict merged)
    ∧ (∀ key v, key ≠ "dialect" → u !! key = Some v → merged !! key = Some v)
    ∧ (∀ key, u !! key = None →
              merged !! key = default ∅ (dialect_options !! name) !! key)
    ∧ (∀ turndown format html kwargs (τ : store),
         τ !! options (service self) = Some (ODict merged) →
         (convert_html turndown format self html kwargs τ).2
           !! options (service self) = Some (ODict merged))
    ∧ (∀ rule_name rule priority (τ : store),
         τ !! options (service self) = Some (ODict merged) →
         (register_rule self rule_name rule priority τ).2
           !! options (service self) = Some (ODict merged)).
Proof.
  intros Hgiven Hname.
  destruct (converter_init_run arg u name σ Hgiven Hname)
    as (self & σ' & Hrun & Ho & _ & Hfresh & _).
  exists self, σ', (delete "dialect" u ∪ default ∅ (dialect_options !! name)).
  split_and!; try done.
  - intros key v Hkey Hu. apply lookup_union_Some_l.
    by rewrite lookup_delete_ne.
  - intros key Hu. rewrite lookup_union_r; [done|].
    rewrite lookup_delete_None. by right.
  - intros turndown format html kwargs τ Hτ.
    eapply lookup_weaken; [exact Hτ|]. apply convert_html_frame.
  - intros rule_name rule priority τ Hτ. by apply register_rule_options.
Qed.

Lemma init_merges_user_options_witness :
  let u : gmap string val :=
    {[ "dialect" := VStr "traditional"; "headingStyle" := VStr "atx" ]} in
  let σ : store := {[ 1%positive := ODict u ]} in
  ∃ self σ' merged,
    __init__ (Some 1%positive) σ = (Return self, σ')
    ∧ σ !! options (service self) = None
    ∧ σ' !! options (service self) = Some (ODict merged)
    ∧ (∀ key v, key ≠ "dialect" → u !! key = Some v → merged !! key = Some v)
    ∧ (∀ key, u !! key = None →
              merged !! key
              = default ∅ (dialect_options !! "traditional") !! key)
    ∧ (∀ turndown format html kwargs (τ : store),
         τ !! options (service self) = Some (ODict merged) →
         (convert_html turndown format self html kwargs τ).2
           !! options (service self) = Some (ODict merged))
    ∧ (∀ rule_name rule priority (τ : store),
         τ !! options (service self) = Some (ODict merged) →
         (register_rule self rule_name rule priority τ).2
           !! options (service self) = Some (ODict merged)).
Proof.
  intros u σ.
  apply (init_merges_user_options (Some 1%positive) u "traditional" σ).
  - reflexivity.
  - reflexivity.
Defined.

(** C10: without a dialect key the constructor takes the github preset: the
    options of the service are the caller's laid over it, so each of
    headingStyle, bulletListMarker, codeBlockStyle, linkStyle, gfm,
    strikethrough, tables and taskLists has the github value unless the
    caller gives the key. *)
Theorem init_defaults_to_github arg u (σ : store) :
  given σ arg u →
  u !! "dialect" = None →
  ∃ self σ' merged,
    __init__ arg σ = (Return self, σ')
    ∧ σ' !! options (service self) = Some (ODict merged)
    ∧ merged = u ∪ default ∅ (dialect_options !! "github")
    ∧ Forall (λ '(key, v), merged !! key = Some (default v (u !! key)))
        [ ("headingStyle", VStr "atx"); ("bulletListMarker", VStr "-");
          ("codeBlockStyle", VStr "fenced"); ("linkStyle", VStr "inlined");
          ("gfm", VBool true); ("strikethrough", VBool true);
          ("tables", VBool true); ("taskLists", VBool true) ].
Proof.
  intros Hgiven Hdialect.
  destruct (converter_init_run arg u "github" σ Hgiven)
    as (self & σ' & Hrun & Ho & _).
  { by rewrite Hdialect. }
  rewrite delete_id in Ho by done.
  exists self, σ', (u ∪ default ∅ (dialect_options !! "github")).
  split_and!; try done.
  clear. repeat (apply List.Forall_cons;
                 [cbv beta iota; rewrite lookup_union; by destruct (u !! _)|]).
  apply List.Forall_nil.
Qed.

Lemma init_defaults_to_github_witness :
  let u : gmap string val := {[ "bulletListMarker" := VStr "+" ]} in
  let σ : store := {[ 1%positive := ODict u ]} in
  ∃ self σ' merged,
    __init__ (Some 1%positive) σ = (Return self, σ')
    ∧ σ' !! options (service self) = Some (ODict merged)
    ∧ merged = u ∪ default ∅ (dialect_options !! "github")
    ∧ Forall (λ '(key, v), merged !! key = Some (default v (u !! key)))
        [ ("headingStyle", VStr "atx"); ("bulletListMarker", VStr "-");
          ("codeBlockStyle", VStr "fenced"); ("linkStyle", VStr "inlined");
          ("gfm", VBool true); ("strikethrough", VBool true);
          ("tables", VBool true); ("taskLists", VBool true) ].
Proof.
  intros u σ. apply (init_defaults_to_github (Some 1%positive) u σ).
  - reflexivity.
  - reflexivity.
Defined.

(** ** Options passed to one call: [Html2MarkdownConverter.convert_html] *)

(** C7: a call of [convert_html] with options of its own runs [turndown] on
    a service made for that call, whose options (the caller's laid over a
    copy of the default ones) and registry are new objects; the options and
    the registry of the default service are after the call what they were
    before, as is every object there was. *)
Theorem convert_html_overrides_leave_default
    (turndown : Service → str → store → outcome str)
    (format : store → val → str)
    self html kwargs d rs (σ : store) :
  let kwargs' := delete "fragment_root" (delete "fragment" kwargs) in
  σ !! options (service self) = Some (ODict d) →
  σ !! rules (service self) = Some (ORegistry rs) →
  kwargs' ≠ ∅ →
  ∃ temp_service html' σ',
    convert_html turndown format self html kwargs σ
    = (turndown temp_service html' σ', σ')
    ∧ σ !! options temp_service = None
    ∧ σ !! rules temp_service = None
    ∧ σ' !! options temp_service = Some (ODict (kwargs' ∪ d))
    ∧ σ' !! rules temp_service = Some (ORegistry default_rules)
    ∧ σ' !! options (service self) = Some (ODict d)
    ∧ σ' !! rules (service self) = Some (ORegistry rs)
    ∧ σ ⊆ σ'.
Proof.
  intros kwargs' Hd Hrs Hkw.
  destruct (convert_html_overrides_run turndown format self html kwargs d σ
              Hd Hkw)
    as (temp & html' & σ' & Hrun & Hof & Hrf & Ho & Hr & Hsub).
  exists temp, html', σ'. split_and!; try done.
  - by eapply lookup_weaken.
  - by eapply lookup_weaken.
Qed.

Lemma convert_html_overrides_leave_default_witness :
  let turndown : Service → str → store → outcome str := λ _ html _, Return html in
  let format : store → val → str := λ _ _, [] in
  let self := {| service := {| options := 1%positive; rules := 2%positive |} |} in
  let d : gmap string val := {[ "headingStyle" := VStr "atx" ]} in
  let kwargs : gmap string val := {[ "headingStyle" := VStr "setext" ]} in
  let σ : store :=
    {[ 1%positive := ODict d; 2%positive := ORegistry default_rules ]} in
  ∃ temp_service html' σ',
    convert_html turndown format self (py "<p>x</p>") kwargs σ
    = (turndown temp_service html' σ', σ')
    ∧ σ !! options temp_service = None
    ∧ σ !! rules temp_service = None
    ∧ σ' !! options temp_service
      = Some (ODict (delete "fragment_root" (delete "fragment" kwargs) ∪ d))
    ∧ σ' !! rules temp_service = Some (ORegistry default_rules)
    ∧ σ' !! options (service self) = Some (ODict d)
    ∧ σ' !! rules (service self) = Some (ORegistry default_rules)
    ∧ σ ⊆ σ'.
Proof.
  intros turndown format self d kwargs σ.
  apply (convert_html_overrides_leave_default turndown format self
           (py "<p>x</p>") kwargs d default_rules σ).
  - reflexivity.
  - reflexivity.
  - vm_compute. discriminate.
Defined.

(** ** Registration of a rule: [Html2MarkdownConverter.register_rule] *)

(** With a priority the rule goes through [register_rule] of the service,
    whatever the priority is. *)
Lemma register_rule_priority_run self name rule priority rs (σ : store) :
  σ !! rules (service self) = Some (ORegistry rs) →
  register_rule self name rule (Some priority) σ
  = (Return (), <[rules (service self) := ORegistry (rs ++ [(name, rule)])]> σ).
Proof. intros H. by apply add_run. Qed.

(** C2, where the code leaves the claim: registered at priority 0 on a new
    converter, the rule is not the first of the registry but the last, behind
    the text rule. *)
Theorem register_rule_priority_appends :
  (register_at_front ∅).1
  = Return (default_rules ++ [("custom", CustomRule 0)]).
Proof. vm_compute. reflexivity. Qed.

(** C3: without a priority, and with a rule called "text" in the registry,
    the new rule goes right before the first such rule; the rules before and
    after keep their order. *)
Theorem register_rule_before_text self name rule rs (σ : store) :
  σ !! rules (service self) = Some (ORegistry rs) →
  "text" ∈ rs.*1 →
  ∃ before text_rule after,
    rs = before ++ ("text", text_rule) :: after
    ∧ "text" ∉ before.*1
    ∧ register_rule self name rule None σ
      = (Return (),
         <[rules (service self) :=
             ORegistry (before ++ (name, rule) :: ("text", text_rule) :: after)]>
           σ).
Proof.
  intros Hr Htext.
  destruct (first_text_split rs Htext) as (before & text_rule & after & -> & Hfirst).
  exists before, text_rule, after. split; [done|]. split; [done|].
  unfold register_rule.
  rewrite bind_run, (get_rules_run _ _ _ Hr). cbv beta iota.
  rewrite text_rule_index_first by done.
  rewrite Z.add_0_l, Nat2Z.id.
  destruct (Z.leb_spec 0 (Z.of_nat (length before))) as [_|]; [|lia].
  rewrite (insert_run _ _ _ _ _ _ Hr).
  by rewrite take_app_length, drop_app_length.
Qed.

Lemma register_rule_before_text_witness :
  let self := {| service := {| options := 1%positive; rules := 2%positive |} |} in
  let σ : store := {[ 2%positive := ORegistry default_rules ]} in
  ∃ before text_rule after,
    default_rules = before ++ ("text", text_rule) :: after
    ∧ "text" ∉ before.*1
    ∧ register_rule self "custom" (CustomRule 0) None σ
      = (Return (),
         <[2%positive :=
             ORegistry (before ++ ("custom", CustomRule 0)
                               :: ("text", text_rule) :: after)]> σ).
Proof.
  intros self σ.
  apply (register_rule_before_text self "custom" (CustomRule 0)
           default_rules σ).
  - reflexivity.
  - apply (bool_decide_unpack ("text" ∈ default_rules.*1)).
    vm_compute. exact I.
Defined.

(** ** Removal of empty tags: [Html2MarkdownService._preprocess] *)

(** C1, where the claim fails: with removeEmptyTags on, [_preprocess] takes
    the innermost of three nested empty divs only; the two around it stay. *)
Lemma preprocess_keeps_emptied_parents :
  let σ : store :=
    {[ 1%positive := ODict {[ "clean" := VRef 2%positive ]};
       2%positive := ODict {[ "removeEmptyTags" := VBool true ]} ]} in
  let self := {| options := 1%positive; rules := 3%positive |} in
  (_preprocess (λ classes, classes) (λ _ d, (map_to_list d).*1)
               (λ _ _ _, false) self three_empty_divs σ).1
  = Return [Tag 1 "div" ∅ [Tag 2 "div" ∅ []]].
Proof. vm_compute. reflexivity. Qed.

(** C1, as amended: the loop over the tags runs once, in document order, and
    removes the tags that have no children, and no name of the void list,
    in the tree as the loop finds it; a tag whose children the loop removes
    stays. *)
Theorem remove_empty_tags_one_pass soup :
  NoDup (node_id <$> flat_map descendants soup) →
  remove_empty_tags soup = flat_map prune soup.
Proof. apply remove_empty_tags_prune. Qed.

Lemma remove_empty_tags_one_pass_witness :
  remove_empty_tags three_empty_divs = [Tag 1 "div" ∅ [Tag 2 "div" ∅ []]].
Proof.
  refine (remove_empty_tags_one_pass three_empty_divs _).
  apply (bool_decide_unpack
           (NoDup (node_id <$> flat_map descendants three_empty_divs))).
  vm_compute. exact I.
Defined.

(** ** Further properties of [Html2MarkdownService._postprocess] *)

Section postprocess_more.

Lemma postprocess_lines markdown :
  split NL (_postprocess markdown) = collapse false (split NL markdown).
Proof.
  rewrite postprocess_collapse. apply split_join.
  - apply collapse_nonempty, split_nonempty.
  - apply collapse_free, split_free.
Qed.

Lemma collapse_content prev lines :
  filter (λ line, is_blank line = false) (collapse prev lines)
  = filter (λ line, is_blank line = false) lines.
Proof.
  revert prev. induction lines as [|line rest IH]; intros prev; [done|].
  cbn [collapse]. destruct (is_blank line) eqn:Hb, prev; cbn [andb];
    rewrite ?filter_cons, ?Hb, ?IH; try done.
Qed.

(** The length of the lines joined by one character each, and one more. *)
Lemma join_length (lines : list str) :
  lines ≠ [] →
  S (length (join [NL] lines)) = sum_list ((λ line, S (length line)) <$> lines).
Proof.
  induction lines as [|line [|next rest] IH]; intros Hne; [done|..].
  - simpl. lia.
  - change (join [NL] (line :: next :: rest))
      with (line ++ NL :: join [NL] (next :: rest)).
    rewrite length_app. cbn [length]. rewrite fmap_cons. cbn [sum_list sum_list_with].
    specialize (IH ltac:(done)). unfold id in *. lia.
Qed.

Lemma collapse_sum prev lines :
  sum_list ((λ line, S (length line)) <$> collapse prev lines)
  ≤ sum_list ((λ line, S (length line)) <$> lines).
Proof.
  revert prev. induction lines as [|line rest IH]; intros prev; [done|].
  cbn [collapse]. destruct (is_blank line && prev).
  - specialize (IH prev). rewrite fmap_cons. cbn [sum_list sum_list_with]. unfold id in *. lia.
  - specialize (IH (is_blank line)). rewrite !fmap_cons.
    cbn [sum_list sum_list_with]. unfold id in *. lia.
Qed.

Lemma collapse_all_blank lines :
  Forall (λ line, is_blank line = true) lines → collapse true lines = [].
Proof.
  induction 1 as [|line rest Hb _ IH]; [done|].
  cbn [collapse]. by rewrite Hb.
Qed.

End postprocess_more.

(** X1: the lines of the result are the lines of the text, in their order,
    less every blank line that comes right after a blank line of the text. *)
Theorem postprocess_drops_repeated_blank_lines :
  ∀ markdown,
    split NL (_postprocess markdown)
    = without_repeated_blank (split NL markdown).
Proof.
  intros markdown. rewrite postprocess_lines. apply collapse_zip.
Qed.

(** X2: no line with content is lost or changed: the lines of the result
    that are not blank are those of the text, in the same order. *)
Theorem postprocess_keeps_content_lines :
  ∀ markdown,
    filter (λ line, is_blank line = false) (split NL (_postprocess markdown))
    = filter (λ line, is_blank line = false) (split NL markdown).
Proof.
  intros markdown. rewrite postprocess_lines. apply collapse_content.
Qed.

(** X3: the result is never longer than the text. *)
Theorem postprocess_not_longer :
  ∀ markdown, length (_postprocess markdown) ≤ length markdown.
Proof.
  intros markdown.
  pose proof (join_length (split NL markdown) (split_nonempty _ _)) as Hin.
  rewrite join_split in Hin.
  pose proof (join_length (collapse false (split NL markdown))
                (collapse_nonempty _ (split_nonempty _ _))) as Hout.
  rewrite <- postprocess_collapse in Hout.
  pose proof (collapse_sum false (split NL markdown)). lia.
Qed.

(** X4: of a text whose lines are all blank, the first line alone is left. *)
Theorem postprocess_blank_text markdown :
  Forall (λ line, is_blank line = true) (split NL markdown) →
  split NL (_postprocess markdown) = take 1 (split NL markdown).
Proof.
  intros Hall. rewrite postprocess_lines.
  destruct (split NL markdown) as [|first rest]; [done|].
  apply Forall_cons in Hall as [Hfirst Hrest].
  cbn [collapse take]. rewrite andb_false_r, Hfirst.
  by rewrite collapse_all_blank.
Qed.

Lemma postprocess_blank_text_witness :
  split NL (_postprocess (py "  " ++ [NL; NL] ++ py " "))
  = take 1 (split NL (py "  " ++ [NL; NL] ++ py " ")).
Proof.
  apply (postprocess_blank_text (py "  " ++ [NL; NL] ++ py " ")).
  apply (bool_decide_unpack
           (Forall (λ line, is_blank line = true)
                   (split NL (py "  " ++ [NL; NL] ++ py " ")))).
  vm_compute. exact I.
Defined.

(** ** Further properties of the converter and the service *)

Section converter_more.

Lemma text_rule_index_absent rules i :
  "text" ∉ rules.*1 → text_rule_index rules i = (-1)%Z.
Proof.
  revert i. induction rules as [|[n r] rules IH]; intros i Hn; simpl; [done|].
  rewrite fmap_cons, not_elem_of_cons in Hn. destruct Hn as [Hne Hn].
  destruct (String.eqb_spec n "text") as [->|_]; [done|]. by apply IH.
Qed.

(** The run of [register_rule] without a priority, with a text rule. *)
Lemma register_rule_none_run self name rule before text_rule after (σ : store) :
  σ !! rules (service self)
  = Some (ORegistry (before ++ ("text", text_rule) :: after)) →
  "text" ∉ before.*1 →
  register_rule self name rule None σ
  = (Return (),
     <[rules (service self) :=
         ORegistry (before ++ (name, rule) :: ("text", text_rule) :: after)]> σ).
Proof.
  intros Hr Hfirst. unfold register_rule.
  rewrite bind_run, (get_rules_run _ _ _ Hr). cbv beta iota.
  rewrite text_rule_index_first by done.
  rewrite Z.add_0_l, Nat2Z.id.
  destruct (Z.leb_spec 0 (Z.of_nat (length before))) as [_|]; [|lia].
  rewrite (insert_run _ _ _ _ _ _ Hr).
  by rewrite take_app_length, drop_app_length.
Qed.

(** The run of the constructor of the service, with the identity of its
    options. *)
Lemma service_init_alias l d (σ : store) :
  σ !! l = Some (ODict d) →
  ∃ self σ',
    Html2MarkdownService.__init__ (Some l) σ = (Return self, σ')
    ∧ (d ≠ ∅ → options self = l)
    ∧ (d = ∅ → σ !! options self = None ∧ σ' !! options self = Some (ODict ∅)).
Proof.
  intros H. unfold Html2MarkdownService.__init__, or_new_dict, dict_truthy.
  rewrite !bind_run, (read_dict_run _ _ _ H), ret_run. cbv beta iota.
  case_bool_decide as Hd.
  - unfold RuleRegistry.new. rewrite ret_run, bind_run, alloc_run.
    cbv beta iota. rewrite bind_run.
    erewrite register_default_rules_run by apply lookup_insert_eq.
    rewrite ret_run. eexists _, _. split; [done|]. by split.
  - assert (d = ∅) as -> by (by destruct (decide (d = ∅))).
    unfold new_dict. rewrite alloc_run. cbv beta iota.
    pose proof (fresh_lookup σ) as Hf. set (o := fresh (dom σ)) in *.
    clearbody o.
    unfold RuleRegistry.new. rewrite bind_run, alloc_run. cbv beta iota.
    pose proof (fresh_lookup (<[o:=ODict ∅]> σ)) as Hr.
    set (r := fresh (dom (<[o:=ODict ∅]> σ))) in *. clearbody r.
    rewrite bind_run.
    erewrite register_default_rules_run by apply lookup_insert_eq.
    rewrite insert_insert_eq, ret_run.
    eexists _, _. split; [done|]. simpl. split; [done|]. intros _.
    split; [done|].
    assert (o ≠ r) by (intros ->; by rewrite lookup_insert_eq in Hr).
    by rewrite lookup_insert_ne, lookup_insert_eq.
Qed.

(** The run of the constructor of the converter on a dict, with what it
    leaves of the objects there were. *)
Lemma converter_init_store l u name (σ : store) :
  σ !! l = Some (ODict u) →
  default (VStr "github") (u !! "dialect") = VStr name →
  ∃ self σ',
    __init__ (Some l) σ = (Return self, σ')
    ∧ σ' !! options (service self)
      = Some (ODict (delete "dialect" u ∪ preset_of name))
    ∧ σ' !! rules (service self) = Some (ORegistry default_rules)
    ∧ σ !! options (service self) = None
    ∧ σ !! rules (service self) = None
    ∧ σ' !! l = Some (ODict (delete "dialect" u))
    ∧ (∀ x, x ≠ l → is_Some (σ !! x) → σ' !! x = σ !! x).
Proof.
  intros Hl Hname. unfold __init__, or_new_dict, dict_truthy.
  rewrite !bind_run, (read_dict_run _ _ _ Hl), ret_run. cbv beta iota.
  (* the dict the constructor goes on with, and the store it is in *)
  assert (∃ o σ1,
             (if bool_decide (u ≠ ∅) then mret l else new_dict ∅) σ
             = (Return o, σ1)
             ∧ σ1 !! o = Some (ODict u)
             ∧ (∀ x, σ1 !! x = None → σ !! x = None)
             ∧ (<[o := ODict (delete "dialect" u)]> σ1) !! l
               = Some (ODict (delete "dialect" u))
             ∧ (∀ x, x ≠ l → is_Some (σ !! x) →
                     (<[o := ODict (delete "dialect" u)]> σ1) !! x = σ !! x))
    as (o & σ1 & Hpick & Ho & Hσ1 & Hol & Hframe1).
  { case_bool_decide as Hd.
    - exists l, σ. rewrite ret_run. split_and!; try done.
      + apply lookup_insert_eq.
      + intros x Hx _. by rewrite lookup_insert_ne.
    - assert (u = ∅) as -> by (by destruct (decide (u = ∅))).
      pose proof (fresh_lookup σ) as Hf.
      exists (fresh (dom σ)), (<[fresh (dom σ) := ODict ∅]> σ).
      unfold new_dict. rewrite alloc_run.
      set (o := fresh (dom σ)) in *. clearbody o.
      assert (o ≠ l) by congruence.
      split_and!; try done.
      + apply lookup_insert_eq.
      + intros x Hx. by apply lookup_insert_None in Hx as [? _].
      + rewrite insert_insert_eq, lookup_insert_ne by done.
        by rewrite delete_empty.
      + intros x Hx [v Hv]. rewrite insert_insert_eq.
        rewrite lookup_insert_ne; [done|]. congruence. }
  rewrite Hpick. clear Hpick. cbv beta iota.
  rewrite bind_run, (dict_pop_run _ _ _ _ _ Ho), Hname. cbv beta iota.
  set (σ2 := <[o:=ODict (delete "dialect" u)]> σ1) in *.
  rewrite bind_run. unfold _get_dialect_options, new_dict.
  rewrite alloc_run. cbv beta iota.
  pose proof (fresh_lookup σ2) as Hp. set (p := fresh (dom σ2)) in *.
  clearbody p. fold (preset_of name).
  assert (o ≠ p) as Hop.
  { intros ->. unfold σ2 in Hp. by rewrite lookup_insert_eq in Hp. }
  rewrite bind_run.
  erewrite read_dict_run
    by (rewrite lookup_insert_ne by done; apply lookup_insert_eq).
  cbv beta iota.
  set (merged := delete "dialect" u ∪ preset_of name).
  assert (∃ σ4, (if bool_decide (delete "dialect" u ≠ ∅)
                 then dict_update p (delete "dialect" u)
                 else mret ()) (<[p:=ODict (preset_of name)]> σ2)
                = (Return (), σ4)
                ∧ σ4 !! p = Some (ODict merged)
                ∧ (∀ x, x ≠ p → σ4 !! x = σ2 !! x))
    as (σ4 & Hrun & Hσ4 & Hsame).
  { case_bool_decide as Hd.
    - erewrite dict_update_run by apply lookup_insert_eq.
      eexists. split; [done|]. rewrite insert_insert_eq, lookup_insert_eq.
      split; [done|]. intros x Hx. by rewrite lookup_insert_ne.
    - assert (delete "dialect" u = ∅) as Hempty
          by (by destruct (decide (delete "dialect" u = ∅))).
      eexists. split; [done|]. rewrite lookup_insert_eq.
      unfold merged. rewrite Hempty, (left_id_L ∅ (∪)). split; [done|].
      intros x Hx. by rewrite lookup_insert_ne. }
  rewrite bind_run, Hrun. cbv beta iota.
  destruct (service_init_run _ _ _ Hσ4)
    as (self & σ' & Hinit & Hopts & Hrules & Hrfresh & _ & Hofresh & Hsub).
  rewrite bind_run, Hinit, ret_run.
  assert (∀ x, is_Some (σ2 !! x) → σ' !! x = σ2 !! x) as Hkeep.
  { intros x [v Hv]. assert (x ≠ p) by congruence.
    rewrite Hv. eapply lookup_weaken; [|exact Hsub]. by rewrite Hsame. }
  assert (∀ x, σ4 !! x = None → σ !! x = None) as Hback.
  { intros x Hx. apply Hσ1.
    destruct (decide (x = p)) as [->|Hxp]; [congruence|].
    rewrite Hsame in Hx by done. unfold σ2 in Hx.
    by apply lookup_insert_None in Hx as [? _]. }
  eexists _, _. split; [done|]. simpl. split_and!; try done.
  - destruct Hofresh as [->|Hof]; [|by apply Hback].
    apply Hσ1. unfold σ2 in Hp. by apply lookup_insert_None in Hp as [? _].
  - by apply Hback.
  - rewrite Hkeep; [done|]. by rewrite Hol.
  - intros x Hx Hin. rewrite Hkeep.
    + by apply Hframe1.
    + rewrite Hframe1 by done. done.
Qed.

End converter_more.
(** X5: the constructor of the converter takes the dialect key out of the
    dict the caller passes, and changes no other object there was: the
    other bindings of that dict, and every other object, are as before. *)
Theorem init_pops_dialect_from_callers_dict l u name (σ : store) :
  σ !! l = Some (ODict u) →
  default (VStr "github") (u !! "dialect") = VStr name →
  ∃ self σ',
    __init__ (Some l) σ = (Return self, σ')
    ∧ σ' !! l = Some (ODict (delete "dialect" u))
    ∧ (∀ x, x ≠ l → is_Some (σ !! x) → σ' !! x = σ !! x).
Proof.
  intros Hl Hname.
  destruct (converter_init_store l u name σ Hl Hname)
    as (self & σ' & Hrun & _ & _ & _ & _ & Hcaller & Hframe).
  by exists self, σ'.
Qed.

Lemma init_pops_dialect_from_callers_dict_witness :
  let u : gmap string val :=
    {[ "dialect" := VStr "traditional"; "headingStyle" := VStr "atx" ]} in
  let σ : store := {[ 1%positive := ODict u ]} in
  ∃ self σ',
    __init__ (Some 1%positive) σ = (Return self, σ')
    ∧ σ' !! 1%positive = Some (ODict (delete "dialect" u))
    ∧ (∀ x, x ≠ 1%positive → is_Some (σ !! x) → σ' !! x = σ !! x).
Proof.
  intros u σ.
  apply (init_pops_dialect_from_callers_dict 1%positive u "traditional" σ).
  - reflexivity.
  - reflexivity.
Defined.

(** X6: a dialect that is a dict or a list cannot be looked up: the
    constructor raises TypeError, and by then the dialect key has left the
    caller's dict. *)
Theorem init_unhashable_dialect l u r (σ : store) :
  σ !! l = Some (ODict u) →
  u !! "dialect" = Some (VRef r) →
  (∃ d, σ !! r = Some (ODict d)) ∨ (∃ vs, σ !! r = Some (OList vs)) →
  __init__ (Some l) σ
  = (Raise TypeError, <[l := ODict (delete "dialect" u)]> σ).
Proof.
  intros Hl Hdialect Hr. unfold __init__, or_new_dict, dict_truthy.
  rewrite !bind_run, (read_dict_run _ _ _ Hl), ret_run. cbv beta iota.
  assert (u ≠ ∅) as Hne.
  { intros ->. by rewrite lookup_empty in Hdialect. }
  rewrite bool_decide_eq_true_2 by done. rewrite ret_run.
  rewrite bind_run, (dict_pop_run _ _ _ _ _ Hl), Hdialect. cbv beta iota.
  rewrite bind_run. unfold _get_dialect_options.
  cbv beta iota delta [default from_option id].
  destruct (decide (r = l)) as [->|Hrl].
  - by rewrite lookup_insert_eq.
  - rewrite lookup_insert_ne by done.
    by destruct Hr as [[d ->]|[vs ->]].
Qed.

Lemma init_unhashable_dialect_witness :
  let u : gmap string val := {[ "dialect" := VRef 2%positive ]} in
  let σ : store :=
    {[ 1%positive := ODict u; 2%positive := OList [VStr "github"] ]} in
  __init__ (Some 1%positive) σ
  = (Raise TypeError, <[1%positive := ODict (delete "dialect" u)]> σ).
Proof.
  intros u σ.
  apply (init_unhashable_dialect 1%positive u 2%positive σ).
  - reflexivity.
  - reflexivity.
  - right. exists [VStr "github"]. reflexivity.
Defined.

(** X7: of two converters made from the same dict, the first takes the
    preset of the dialect the dict names, and takes the key out of the dict;
    the second finds no dialect key and takes the preset of github, whatever
    the dict named.  Their option dicts are two objects, and so are their
    registries. *)
Theorem second_converter_loses_dialect l u name (σ : store) :
  σ !! l = Some (ODict u) →
  u !! "dialect" = Some (VStr name) →
  ∃ first second σ',
    two_converters (Some l) σ = (Return (first, second), σ')
    ∧ σ' !! options (service first)
      = Some (ODict (delete "dialect" u ∪ preset_of name))
    ∧ σ' !! options (service second)
      = Some (ODict (delete "dialect" u ∪ preset_of "github"))
    ∧ options (service first) ≠ options (service second)
    ∧ rules (service first) ≠ rules (service second).
Proof.
  intros Hl Hdialect. unfold two_converters.
  destruct (converter_init_store l u name σ Hl)
    as (c1 & σ1 & Hrun1 & Ho1 & Hr1 & Hof1 & Hrf1 & Hl1 & _).
  { by rewrite Hdialect. }
  destruct (converter_init_store l (delete "dialect" u) "github" σ1 Hl1)
    as (c2 & σ2 & Hrun2 & Ho2 & Hr2 & Hof2 & Hrf2 & _ & Hframe2).
  { by rewrite lookup_delete_eq. }
  rewrite bind_run, Hrun1. cbv beta iota.
  rewrite bind_run, Hrun2, ret_run.
  exists c1, c2, σ2. split; [done|].
  rewrite delete_delete_eq in Ho2.
  assert (options (service c1) ≠ l) by congruence.
  split_and!; try done.
  - rewrite Hframe2; [done..|]. by rewrite Ho1.
  - congruence.
  - congruence.
Qed.

Lemma second_converter_loses_dialect_witness :
  let u : gmap string val := {[ "dialect" := VStr "traditional" ]} in
  let σ : store := {[ 1%positive := ODict u ]} in
  ∃ first second σ',
    two_converters (Some 1%positive) σ = (Return (first, second), σ')
    ∧ σ' !! options (service first)
      = Some (ODict (delete "dialect" u ∪ preset_of "traditional"))
    ∧ σ' !! options (service second)
      = Some (ODict (delete "dialect" u ∪ preset_of "github"))
    ∧ options (service first) ≠ options (service second)
    ∧ rules (service first) ≠ rules (service second).
Proof.
  intros u σ.
  apply (second_converter_loses_dialect 1%positive u "traditional" σ).
  - reflexivity.
  - reflexivity.
Defined.

(** X8: the service keeps the dict it is given, not a copy, when the dict
    has a binding; an empty dict is left aside for a new empty dict. *)
Theorem service_keeps_callers_dict l d (σ : store) :
  σ !! l = Some (ODict d) →
  ∃ self σ',
    Html2MarkdownService.__init__ (Some l) σ = (Return self, σ')
    ∧ (d ≠ ∅ → options self = l)
    ∧ (d = ∅ → σ !! options self = None ∧ σ' !! options self = Some (ODict ∅)).
Proof. apply service_init_alias. Qed.

Lemma service_keeps_callers_dict_witness :
  let d : gmap string val := {[ "headingStyle" := VStr "atx" ]} in
  let σ : store := {[ 1%positive := ODict d ]} in
  ∃ self σ',
    Html2MarkdownService.__init__ (Some 1%positive) σ = (Return self, σ')
    ∧ (d ≠ ∅ → options self = 1%positive)
    ∧ (d = ∅ → σ !! options self = None ∧ σ' !! options self = Some (ODict ∅)).
Proof.
  intros d σ. apply (service_keeps_callers_dict 1%positive d σ). reflexivity.
Defined.

(** X9: whatever options it is given, a new service has a registry of its
    own with the twenty default rules in the order of registration, and no
    object there was is changed. *)
Theorem service_starts_with_default_rules arg u (σ : store) :
  given σ arg u →
  ∃ self σ',
    Html2MarkdownService.__init__ arg σ = (Return self, σ')
    ∧ σ !! rules self = None
    ∧ σ' !! rules self = Some (ORegistry default_rules)
    ∧ σ ⊆ σ'.
Proof.
  destruct arg as [l|]; simpl; intros Hgiven.
  - destruct (service_init_run l u σ Hgiven)
      as (self & σ' & Hrun & _ & Hr & Hrf & _ & _ & Hsub).
    by exists self, σ'.
  - subst u. unfold Html2MarkdownService.__init__, or_new_dict, new_dict.
    rewrite bind_run, alloc_run. cbv beta iota.
    pose proof (fresh_lookup σ) as Hf. set (o := fresh (dom σ)) in *.
    clearbody o.
    unfold RuleRegistry.new. rewrite bind_run, alloc_run. cbv beta iota.
    pose proof (fresh_lookup (<[o:=ODict ∅]> σ)) as Hr.
    set (r := fresh (dom (<[o:=ODict ∅]> σ))) in *. clearbody r.
    rewrite bind_run.
    erewrite register_default_rules_run by apply lookup_insert_eq.
    rewrite insert_insert_eq, ret_run.
    eexists _, _. split; [done|]. simpl.
    rewrite lookup_insert_eq.
    apply lookup_insert_None in Hr as [Hr Hor].
    split_and!; try done.
    etrans; [by apply (insert_subseteq σ o)|].
    apply insert_subseteq. by rewrite lookup_insert_ne.
Qed.

Lemma service_starts_with_default_rules_witness :
  let σ : store := {[ 1%positive := ODict {[ "gfm" := VBool false ]} ]} in
  ∃ self σ',
    Html2MarkdownService.__init__ (Some 1%positive) σ = (Return self, σ')
    ∧ σ !! rules self = None
    ∧ σ' !! rules self = Some (ORegistry default_rules)
    ∧ σ ⊆ σ'.
Proof.
  intros σ.
  apply (service_starts_with_default_rules (Some 1%positive)
           {[ "gfm" := VBool false ]} σ).
  reflexivity.
Defined.

(** ** Further properties of registration and of the calls *)

Section calls_more.

(** After [register_rule] the rule is in the registry of the default
    service, with the rules there were. *)
Lemma register_rule_registers self name rule priority rs (σ : store) :
  σ !! rules (service self) = Some (ORegistry rs) →
  ∃ rs',
    register_rule self name rule priority σ
    = (Return (), <[rules (service self) := ORegistry rs']> σ)
    ∧ (name, rule) ∈ rs'.
Proof.
  intros Hr. unfold register_rule, Html2MarkdownService.register_rule.
  destruct priority.
  - rewrite (add_run _ _ _ _ _ Hr). eexists. split; [done|]. set_solver.
  - rewrite bind_run, (get_rules_run _ _ _ Hr). cbv beta iota. case_match.
    + rewrite (insert_run _ _ _ _ _ _ Hr). eexists. split; [done|]. set_solver.
    + rewrite (add_run _ _ _ _ _ Hr). eexists. split; [done|]. set_solver.
Qed.

Lemma custom_rule_not_default name n : (name, CustomRule n) ∉ default_rules.
Proof.
  unfold default_rules. intros H.
  repeat (apply elem_of_cons in H as [H|H]; [discriminate|]).
  by apply elem_of_nil in H.
Qed.

End calls_more.

(** X10: without a priority and without a rule called "text" in the
    registry, the rule goes to the end. *)
Theorem register_rule_without_text_appends self name rule rs (σ : store) :
  σ !! rules (service self) = Some (ORegistry rs) →
  "text" ∉ rs.*1 →
  register_rule self name rule None σ
  = (Return (), <[rules (service self) := ORegistry (rs ++ [(name, rule)])]> σ).
Proof.
  intros Hr Hno. unfold register_rule.
  rewrite bind_run, (get_rules_run _ _ _ Hr). cbv beta iota.
  rewrite text_rule_index_absent by done. cbn.
  by apply add_run.
Qed.

Lemma register_rule_without_text_appends_witness :
  let self := {| service := {| options := 1%positive; rules := 2%positive |} |} in
  let σ : store := {[ 2%positive := ORegistry [("paragraph", ParagraphRule)] ]} in
  register_rule self "custom" (CustomRule 0) None σ
  = (Return (),
     <[2%positive :=
         ORegistry ([("paragraph", ParagraphRule)] ++ [("custom", CustomRule 0)])]>
       σ).
Proof.
  intros self σ.
  apply (register_rule_without_text_appends self "custom" (CustomRule 0)
           [("paragraph", ParagraphRule)] σ).
  - reflexivity.
  - apply (bool_decide_unpack
             ("text" ∉ [("paragraph", ParagraphRule)].*1)).
    vm_compute. exact I.
Defined.

(** X11: two rules registered one after the other without a priority, the
    first not called "text", both stand before the text rule, in the order
    of their registration. *)
Theorem register_two_keeps_order self name1 rule1 name2 rule2
    before text_rule after (σ : store) :
  σ !! rules (service self)
  = Some (ORegistry (before ++ ("text", text_rule) :: after)) →
  "text" ∉ before.*1 →
  name1 ≠ "text" →
  register_two self name1 rule1 name2 rule2 σ
  = (Return (),
     <[rules (service self) :=
         ORegistry (before ++ (name1, rule1) :: (name2, rule2)
                           :: ("text", text_rule) :: after)]> σ).
Proof.
  intros Hr Hfirst Hname. unfold register_two.
  rewrite bind_run, (register_rule_none_run _ _ _ _ _ _ _ Hr Hfirst).
  cbv beta iota.
  rewrite (register_rule_none_run self name2 rule2 (before ++ [(name1, rule1)])
             text_rule after).
  - by rewrite insert_insert_eq, <- app_assoc.
  - rewrite lookup_insert_eq. by rewrite <- app_assoc.
  - rewrite fmap_app. intros Hin. apply elem_of_app in Hin as [Hin|Hin]; [done|].
    apply list_elem_of_singleton in Hin. done.
Qed.

Lemma register_two_keeps_order_witness :
  let self := {| service := {| options := 1%positive; rules := 2%positive |} |} in
  let σ : store := {[ 2%positive := ORegistry default_rules ]} in
  register_two self "first" (CustomRule 1) "second" (CustomRule 2) σ
  = (Return (),
     <[2%positive :=
         ORegistry (take 19 default_rules
                    ++ ("first", CustomRule 1) :: ("second", CustomRule 2)
                    :: ("text", TextRule) :: [])]> σ).
Proof.
  intros self σ.
  apply (register_two_keeps_order self "first" (CustomRule 1)
           "second" (CustomRule 2) (take 19 default_rules) TextRule [] σ).
  - reflexivity.
  - apply (bool_decide_unpack ("text" ∉ (take 19 default_rules).*1)).
    vm_compute. exact I.
  - discriminate.
Defined.

(** X12: [convert_html_fragment] wraps the text in the root element
    whatever the caller passes as fragment; with no option besides fragment
    and fragment_root it converts on the default service and changes no
    object. *)
Theorem convert_html_fragment_wraps
    (turndown : Service → str → store → outcome str)
    (format : store → val → str)
    self html_fragment kwargs (σ : store) :
  delete "fragment_root" (delete "fragment" kwargs) = ∅ →
  convert_html_fragment turndown format self html_fragment kwargs σ
  = (turndown (service self)
       (wrapped (format σ (default (VStr "div") (kwargs !! "fragment_root")))
                html_fragment) σ,
     σ).
Proof.
  intros Hkw. unfold convert_html_fragment, call_convert_html.
  assert (kwargs !! "html" = None) as Hhtml.
  { rewrite <- (lookup_delete_ne kwargs "fragment" "html") by done.
    rewrite <- (lookup_delete_ne _ "fragment_root" "html") by done.
    by rewrite Hkw. }
  rewrite lookup_insert_ne, Hhtml by done. unfold convert_html.
  rewrite lookup_insert_eq, delete_insert_eq, Hkw.
  rewrite lookup_delete_ne by done.
  rewrite bind_run. unfold inspect at 1. cbv beta iota.
  rewrite bind_run. unfold inspect at 1. cbv beta iota.
  rewrite bool_decide_eq_false_2 by naive_solver. done.
Qed.

Lemma convert_html_fragment_wraps_witness :
  let turndown : Service → str → store → outcome str := λ _ html _, Return html in
  let format : store → val → str := λ _ _, py "section" in
  let self := {| service := {| options := 1%positive; rules := 2%positive |} |} in
  let kwargs : gmap string val :=
    {[ "fragment" := VBool false; "fragment_root" := VStr "section" ]} in
  convert_html_fragment turndown format self (py "<b>x</b>") kwargs ∅
  = (turndown (service self)
       (wrapped (format ∅ (default (VStr "div") (kwargs !! "fragment_root")))
                (py "<b>x</b>")) ∅,
     ∅).
Proof.
  intros turndown format self kwargs.
  apply (convert_html_fragment_wraps turndown format self (py "<b>x</b>")
           kwargs ∅).
  vm_compute. reflexivity.
Defined.

(** X13: a rule registered with [register_rule] is in the registry of the
    default service only: a call of [convert_html] with options of its own
    converts on a service that has the default rules and not that rule. *)
Theorem registered_rule_not_in_call_service
    (turndown : Service → str → store → outcome str)
    (format : store → val → str)
    self name n priority html kwargs d rs (σ : store) :
  σ !! options (service self) = Some (ODict d) →
  σ !! rules (service self) = Some (ORegistry rs) →
  delete "fragment_root" (delete "fragment" kwargs) ≠ ∅ →
  ∃ rs' temp_service html' σ',
    (_ ← register_rule self name (CustomRule n) priority;
     convert_html turndown format self html kwargs) σ
    = (turndown temp_service html' σ', σ')
    ∧ σ' !! rules (service self) = Some (ORegistry rs')
    ∧ (name, CustomRule n) ∈ rs'
    ∧ σ' !! rules temp_service = Some (ORegistry default_rules)
    ∧ (name, CustomRule n) ∉ default_rules.
Proof.
  intros Hd Hr Hkw.
  destruct (register_rule_registers self name (CustomRule n) priority rs σ Hr)
    as (rs' & Hreg & Hin).
  rewrite bind_run, Hreg. cbv beta iota.
  assert (rules (service self) ≠ options (service self)) by congruence.
  destruct (convert_html_overrides_run turndown format self html kwargs d
              (<[rules (service self) := ORegistry rs']> σ))
    as (temp & html' & σ' & Hrun & _ & _ & _ & Htemp & Hsub); [|done|].
  { by rewrite lookup_insert_ne. }
  exists rs', temp, html', σ'. split_and!; try done.
  - eapply lookup_weaken; [|exact Hsub]. apply lookup_insert_eq.
  - apply custom_rule_not_default.
Qed.

Lemma registered_rule_not_in_call_service_witness :
  let turndown : Service → str → store → outcome str := λ _ html _, Return html in
  let format : store → val → str := λ _ _, [] in
  let self := {| service := {| options := 1%positive; rules := 2%positive |} |} in
  let kwargs : gmap string val := {[ "headingStyle" := VStr "setext" ]} in
  let σ : store :=
    {[ 1%positive := ODict ∅; 2%positive := ORegistry default_rules ]} in
  ∃ rs' temp_service html' σ',
    (_ ← register_rule self "custom" (CustomRule 0) None;
     convert_html turndown format self (py "<p>x</p>") kwargs) σ
    = (turndown temp_service html' σ', σ')
    ∧ σ' !! rules (service self) = Some (ORegistry rs')
    ∧ ("custom", CustomRule 0) ∈ rs'
    ∧ σ' !! rules temp_service = Some (ORegistry default_rules)
    ∧ ("custom", CustomRule 0) ∉ default_rules.
Proof.
  intros turndown format self kwargs σ.
  apply (registered_rule_not_in_call_service turndown format self "custom" 0
           None (py "<p>x</p>") kwargs ∅ default_rules σ).
  - reflexivity.
  - reflexivity.
  - vm_compute. discriminate.
Defined.



(** ** Further properties of [Html2MarkdownService._preprocess] *)

Section tree_more.

Lemma decompose_all ids D soup :
  fold_left (λ soup i, decompose i soup) ids (flat_map (erase D) soup)
  = flat_map (erase (D ++ ids)) soup.
Proof.
  revert D. induction ids as [|i ids IH]; intros D; cbn [fold_left].
  - by rewrite app_nil_r.
  - rewrite decompose_erase, IH. by rewrite <- app_assoc.
Qed.

(** Removing the nodes that satisfy [p] by their identities. *)
Lemma erase_where_node p D n :
  (∀ m, m ∈ descendants n → node_id m ∈ D ↔ p m = true) →
  erase D n = remove_where p n.
Proof.
  induction n as [j name attrs contents IH|j s|j s] using Node_forall_ind;
    intros Hd.
  - pose proof (Hd (Tag j name attrs contents)) as Hn.
    rewrite descendants_eq in Hn. specialize (Hn ltac:(set_solver)).
    cbn [remove_where]. destruct (p _) eqn:Hp.
    + apply erase_member. by apply Hn.
    + rewrite erase_fresh by (rewrite Hn; done). cbn [erase_below].
      do 2 f_equal.
      assert (∀ m, m ∈ flat_map descendants contents →
                   node_id m ∈ D ↔ p m = true) as Hc.
      { intros m Hm. apply Hd. rewrite descendants_eq. set_solver. }
      clear Hd Hn Hp.
      induction IH as [|c contents Hc' _ IHc]; [done|].
      cbn [flat_map] in *. rewrite Hc', IHc; [done|..];
        intros m Hm; apply Hc; set_solver.
  - pose proof (Hd (NavigableString j s) ltac:(set_solver)) as Hn.
    cbn [remove_where]. destruct (p _) eqn:Hp.
    + apply erase_member. by apply Hn.
    + apply erase_fresh. rewrite Hn. done.
  - pose proof (Hd (Comment j s) ltac:(set_solver)) as Hn.
    cbn [remove_where]. destruct (p _) eqn:Hp.
    + apply erase_member. by apply Hn.
    + apply erase_fresh. rewrite Hn. done.
Qed.

Lemma erase_where p D soup :
  (∀ m, m ∈ flat_map descendants soup → node_id m ∈ D ↔ p m = true) →
  flat_map (erase D) soup = flat_map (remove_where p) soup.
Proof.
  induction soup as [|c soup IH]; intros Hd; [done|].
  cbn [flat_map] in *. rewrite (erase_where_node p), IH; [done|..];
    intros m Hm; apply Hd; set_solver.
Qed.

(** A loop that decomposes the nodes [find_all] gives removes the nodes
    that match. *)
Lemma decompose_found p soup :
  NoDup (node_id <$> flat_map descendants soup) →
  fold_left (λ soup i, decompose i soup) (find_all p soup) soup
  = flat_map (remove_where p) soup.
Proof.
  intros Hnd. rewrite <- (erase_nil soup) at 2.
  rewrite decompose_all, app_nil_l. apply erase_where. intros m Hm.
  unfold find_all. rewrite list_elem_of_fmap. split.
  - intros (m' & Heq & Hm'). apply list_elem_of_filter in Hm' as [Hp Hm'].
    symmetry in Heq.
    by rewrite <- (NoDup_fmap_same node_id _ m' m Hnd Hm' Hm Heq).
  - intros Hp. exists m. split; [done|]. by apply list_elem_of_filter.
Qed.

(** What is left has identities that were there, in the same order. *)
Lemma remove_where_ids_node p n :
  node_id <$> flat_map descendants (remove_where p n)
  `sublist_of` node_id <$> descendants n.
Proof.
  induction n as [j name attrs contents IH|j s|j s] using Node_forall_ind;
    cbn [remove_where]; destruct (p _); try apply sublist_nil_l;
    cbn [flat_map]; rewrite app_nil_r; [|done..].
  rewrite !descendants_eq. cbn [contents_of]. rewrite !fmap_cons.
  apply sublist_skip.
  induction IH as [|c contents Hc _ IHc]; [done|].
  cbn [flat_map]. rewrite flat_map_app, !fmap_app. by apply sublist_app.
Qed.

Lemma remove_where_ids p soup :
  node_id <$> flat_map descendants (flat_map (remove_where p) soup)
  `sublist_of` node_id <$> flat_map descendants soup.
Proof.
  induction soup as [|c soup IH]; [done|].
  cbn [flat_map]. rewrite flat_map_app, !fmap_app.
  apply sublist_app; [apply remove_where_ids_node|done].
Qed.

Lemma remove_where_NoDup p soup :
  NoDup (node_id <$> flat_map descendants soup) →
  NoDup (node_id <$> flat_map descendants (flat_map (remove_where p) soup)).
Proof. intros Hnd. eapply sublist_NoDup; [exact Hnd|apply remove_where_ids]. Qed.

(** Two removals, one after the other, are one removal. *)
Lemma remove_where_twice_node p q n :
  ignores_contents q →
  flat_map (remove_where q) (remove_where p n)
  = remove_where (λ m, p m || q m) n.
Proof.
  intros Hq.
  induction n as [j name attrs contents IH|j s|j s] using Node_forall_ind;
    cbn [remove_where]; destruct (p _) eqn:Hp; cbn [orb flat_map]; try done.
  - rewrite app_nil_r. cbn [remove_where].
    rewrite (Hq j name attrs _ contents).
    destruct (q _); [done|]. do 2 f_equal. clear Hp.
    induction IH as [|c contents Hc _ IHc]; [done|].
    cbn [flat_map]. by rewrite flat_map_app, Hc, IHc.
  - rewrite app_nil_r. cbn [remove_where]. by destruct (q _).
  - rewrite app_nil_r. cbn [remove_where]. by destruct (q _).
Qed.

Lemma remove_where_twice p q soup :
  ignores_contents q →
  flat_map (remove_where q) (flat_map (remove_where p) soup)
  = flat_map (remove_where (λ m, p m || q m)) soup.
Proof.
  intros Hq. induction soup as [|c soup IH]; [done|].
  cbn [flat_map]. by rewrite flat_map_app, remove_where_twice_node, IH.
Qed.

Lemma remove_where_ext_node p q n :
  (∀ m, p m = q m) → remove_where p n = remove_where q n.
Proof.
  intros Hpq.
  induction n as [j name attrs contents IH|j s|j s] using Node_forall_ind;
    cbn [remove_where]; rewrite Hpq; [|done..].
  destruct (q _); [done|]. do 2 f_equal. by apply flat_map_forall_ext.
Qed.

Lemma remove_where_ext p q soup :
  (∀ m, p m = q m) →
  flat_map (remove_where p) soup = flat_map (remove_where q) soup.
Proof.
  intros Hpq. apply flat_map_forall_ext, Forall_forall.
  intros n _. by apply remove_where_ext_node.
Qed.

Lemma named_ignores_contents names : ignores_contents (named names).
Proof. by intros i name attrs contents contents'. Qed.

Lemma remove_where_none_node p n :
  (∀ m, p m = false) → remove_where p n = [n].
Proof.
  intros Hp.
  induction n as [j name attrs contents IH|j s|j s] using Node_forall_ind;
    cbn [remove_where]; rewrite Hp; [|done..].
  do 2 f_equal. induction IH as [|c contents Hc _ IHc]; [done|].
  cbn [flat_map]. by rewrite Hc, IHc.
Qed.

Lemma remove_where_none p soup :
  (∀ m, p m = false) → flat_map (remove_where p) soup = soup.
Proof.
  intros Hp. induction soup as [|n soup IH]; [done|].
  cbn [flat_map]. by rewrite remove_where_none_node, IH.
Qed.

Lemma remove_tags_where names soup :
  NoDup (node_id <$> flat_map descendants soup) →
  remove_tags names soup = flat_map (remove_where (named names)) soup.
Proof.
  revert soup. induction names as [|tag_name names IH]; intros soup Hnd.
  - change (remove_tags [] soup) with soup. by rewrite remove_where_none.
  - change (remove_tags (tag_name :: names) soup)
      with (remove_tags names
              (fold_left (λ soup i, decompose i soup)
                         (find_all (has_name tag_name) soup) soup)).
    rewrite decompose_found by done.
    rewrite IH by (by apply remove_where_NoDup).
    rewrite remove_where_twice by apply named_ignores_contents.
    apply remove_where_ext. intros m. unfold named. cbn [existsb]. done.
Qed.

End tree_more.
Section attrs_more.

Lemma fold_left_ext {A B} (f g : A → B → A) (l : list B) (a : A) :
  (∀ a b, f a b = g a b) → fold_left f l a = fold_left g l a.
Proof.
  intros Hfg. revert a. induction l as [|b l IH]; intros a; [done|].
  cbn [fold_left]. by rewrite Hfg, IH.
Qed.

Lemma with_attrs_same i n : with_attrs i (λ attrs, attrs) n = n.
Proof.
  induction n as [j name attrs contents IH|j s|j s] using Node_forall_ind;
    [|done..].
  cbn [with_attrs]. f_equal; [by case_bool_decide|].
  induction IH as [|c contents Hc _ IHc]; [done|].
  rewrite fmap_cons. by rewrite Hc, IHc.
Qed.

Lemma with_attrs_twice i f g n :
  with_attrs i g (with_attrs i f n) = with_attrs i (λ attrs, g (f attrs)) n.
Proof.
  induction n as [j name attrs contents IH|j s|j s] using Node_forall_ind;
    [|done..].
  cbn [with_attrs]. f_equal; [by case_bool_decide|].
  induction IH as [|c contents Hc _ IHc]; [done|].
  rewrite !fmap_cons. by rewrite Hc, IHc.
Qed.

Lemma set_attrs_twice i f g soup :
  set_attrs i g (set_attrs i f soup) = set_attrs i (λ attrs, g (f attrs)) soup.
Proof.
  unfold set_attrs. rewrite <- list_fmap_compose.
  apply list_fmap_ext. intros k n _. apply with_attrs_twice.
Qed.

(** The inner loop of [remove_attrs], on one tag. *)
Lemma delete_attrs_on_tag i names f soup :
  fold_left (λ soup attr, set_attrs i (delete attr) soup) names
            (set_attrs i f soup)
  = set_attrs i (λ attrs, fold_left (λ m attr, delete attr m) names (f attrs))
              soup.
Proof.
  revert f. induction names as [|attr names IH]; intros f; [done|].
  cbn [fold_left]. by rewrite set_attrs_twice, IH.
Qed.

Lemma set_attrs_same i soup : set_attrs i (λ attrs, attrs) soup = soup.
Proof.
  unfold set_attrs. induction soup as [|n soup IH]; [done|].
  rewrite fmap_cons. by rewrite with_attrs_same, IH.
Qed.

Lemma fold_delete_lookup names (attrs : gmap string attr_value) key :
  fold_left (λ m attr, delete attr m) names attrs !! key
  = if bool_decide (key ∈ names) then None else attrs !! key.
Proof.
  revert attrs. induction names as [|attr names IH]; intros attrs.
  - by rewrite bool_decide_eq_false_2 by apply not_elem_of_nil.
  - cbn [fold_left]. rewrite IH.
    destruct (decide (key = attr)) as [->|Hne].
    + rewrite (bool_decide_eq_true_2 (attr ∈ attr :: names)) by left.
      rewrite lookup_delete_eq. by case_bool_decide.
    + rewrite lookup_delete_ne by done.
      do 2 case_bool_decide; try done; set_solver.
Qed.

Lemma fold_delete_without_keys names (attrs : gmap string attr_value) :
  fold_left (λ m attr, delete attr m) names attrs = without_keys names attrs.
Proof.
  apply map_eq. intros key. rewrite fold_delete_lookup.
  unfold without_keys. rewrite map_lookup_filter.
  destruct (attrs !! key) as [v|] eqn:Hk; simpl.
  - case_bool_decide; case_guard; simpl in *; done.
  - by case_bool_decide.
Qed.

Lemma with_attrs_in_nil f n : with_attrs_in [] f n = n.
Proof.
  induction n as [j name attrs contents IH|j s|j s] using Node_forall_ind;
    [|done..].
  cbn [with_attrs_in].
  rewrite bool_decide_eq_false_2 by apply not_elem_of_nil. f_equal.
  induction IH as [|c contents Hc _ IHc]; [done|].
  rewrite fmap_cons. by rewrite Hc, IHc.
Qed.

Lemma with_attrs_in_snoc T i f n :
  i ∉ T →
  with_attrs i f (with_attrs_in T f n) = with_attrs_in (T ++ [i]) f n.
Proof.
  intros Hi.
  induction n as [j name attrs contents IH|j s|j s] using Node_forall_ind;
    [|done..].
  cbn [with_attrs with_attrs_in]. f_equal.
  - destruct (decide (j = i)) as [->|Hne].
    + rewrite (bool_decide_eq_true_2 (i = i)) by done.
      rewrite (bool_decide_eq_false_2 (i ∈ T)) by done.
      by rewrite bool_decide_eq_true_2 by set_solver.
    + rewrite (bool_decide_eq_false_2 (j = i)) by done.
      apply (f_equal (λ b : bool, if b then f attrs else attrs)).
      apply bool_decide_ext. set_solver.
  - induction IH as [|c contents Hc _ IHc]; [done|].
    rewrite !fmap_cons. by rewrite Hc, IHc.
Qed.

(** A loop that changes the attributes of the tags it was given, each
    once. *)
Lemma set_attrs_all f S T soup :
  NoDup S → (∀ i, i ∈ S → i ∉ T) →
  fold_left (λ soup i, set_attrs i f soup) S (with_attrs_in T f <$> soup)
  = with_attrs_in (T ++ S) f <$> soup.
Proof.
  intros Hnd. revert T. induction Hnd as [|i S Hi Hnd IH]; intros T Hdisj.
  - by rewrite app_nil_r.
  - cbn [fold_left]. unfold set_attrs at 2.
    rewrite <- list_fmap_compose.
    rewrite (list_fmap_ext _ (with_attrs_in (T ++ [i]) f)).
    2:{ intros k n _. apply with_attrs_in_snoc, Hdisj. left. }
    rewrite IH.
    + by rewrite <- app_assoc.
    + intros k Hk Hin. apply elem_of_app in Hin as [Hin|Hin].
      * apply (Hdisj k); [by right|done].
      * apply list_elem_of_singleton in Hin. by subst.
Qed.

Lemma with_attrs_in_all S f n :
  (∀ j name attrs contents,
      Tag j name attrs contents ∈ descendants n → j ∈ S ∨ f attrs = attrs) →
  with_attrs_in S f n = map_attrs f n.
Proof.
  induction n as [j name attrs contents IH|j s|j s] using Node_forall_ind;
    intros Hall; [|done..].
  cbn [with_attrs_in map_attrs]. f_equal.
  - destruct (Hall j name attrs contents) as [Hin|Heq];
      [rewrite descendants_eq; left|..].
    + by rewrite bool_decide_eq_true_2.
    + rewrite Heq. by case_bool_decide.
  - assert (∀ j' name' attrs' contents',
               Tag j' name' attrs' contents' ∈ flat_map descendants contents →
               j' ∈ S ∨ f attrs' = attrs') as Hc.
    { intros ???? Hin. eapply Hall. rewrite descendants_eq. right. exact Hin. }
    clear Hall.
    induction IH as [|c contents Hc' _ IHc]; [done|].
    cbn [flat_map] in Hc. rewrite !fmap_cons. rewrite Hc', IHc; [done|..];
      intros j' name' attrs' contents' Hin;
      apply (Hc j' name' attrs' contents'); set_solver.
Qed.

Lemma set_attrs_found p f soup :
  NoDup (node_id <$> flat_map descendants soup) →
  (∀ j name attrs contents,
      Tag j name attrs contents ∈ flat_map descendants soup →
      p (Tag j name attrs contents) = true ∨ f attrs = attrs) →
  fold_left (λ soup i, set_attrs i f soup) (find_all p soup) soup
  = map_attrs f <$> soup.
Proof.
  intros Hnd Hall.
  assert (soup = with_attrs_in [] f <$> soup) as Hstart.
  { induction soup as [|n soup' IH]; [done|].
    rewrite fmap_cons, with_attrs_in_nil. f_equal.
    clear. induction soup' as [|m soup' IH]; [done|].
    by rewrite fmap_cons, with_attrs_in_nil, <- IH. }
  rewrite Hstart at 2. rewrite set_attrs_all.
  - rewrite app_nil_l. clear Hstart Hnd.
    assert (∀ j name attrs contents,
               Tag j name attrs contents ∈ flat_map descendants soup →
               j ∈ find_all p soup ∨ f attrs = attrs) as Hin.
    { intros j name attrs contents Hm.
      destruct (Hall _ _ _ _ Hm) as [Hp|Heq]; [left|by right].
      unfold find_all. apply list_elem_of_fmap.
      exists (Tag j name attrs contents). split; [done|].
      by apply list_elem_of_filter. }
    clear Hall. generalize dependent (find_all p soup). intros S Hin.
    induction soup as [|n soup IH]; [done|].
    cbn [flat_map] in Hin. rewrite !fmap_cons.
    rewrite with_attrs_in_all, IH; [done|..];
      intros j' name' attrs' contents' Hm;
      apply (Hin j' name' attrs' contents'); set_solver.
  - unfold find_all. eapply sublist_NoDup; [exact Hnd|].
    apply fmap_sublist, sublist_filter.
  - intros i _. apply not_elem_of_nil.
Qed.

Lemma prune_remove_where n : prune n = remove_where removable n.
Proof.
  induction n as [j name attrs contents IH|j s|j s] using Node_forall_ind;
    [|done..].
  cbn [prune remove_where]. destruct (removable _); [done|].
  do 2 f_equal. by apply flat_map_forall_ext.
Qed.

End attrs_more.
Section preprocess_more.

Lemma with_attrs_ext i f g n :
  (∀ attrs, f attrs = g attrs) → with_attrs i f n = with_attrs i g n.
Proof.
  intros Hfg.
  induction n as [j name attrs contents IH|j s|j s] using Node_forall_ind;
    [|done..].
  cbn [with_attrs]. rewrite Hfg. f_equal.
  induction IH as [|c contents Hc _ IHc]; [done|].
  rewrite !fmap_cons. by rewrite Hc, IHc.
Qed.

Lemma remove_attrs_step i names soup :
  fold_left (λ soup attr, set_attrs i (delete attr) soup) names soup
  = set_attrs i (without_keys names) soup.
Proof.
  rewrite <- (set_attrs_same i soup) at 1. rewrite delete_attrs_on_tag.
  unfold set_attrs. apply list_fmap_ext. intros k n _.
  apply with_attrs_ext. intros attrs. apply fold_delete_without_keys.
Qed.

Lemma remove_classes_attrs_no_class list_of_set names
    (attrs : gmap string attr_value) :
  attrs !! "class" = None →
  remove_classes_attrs list_of_set names attrs = attrs.
Proof. intros H. unfold remove_classes_attrs. by rewrite H. Qed.

Lemma reads_only_bind {A B} (m : M A) (f : A → M B) :
  reads_only m → (∀ a, reads_only (f a)) → reads_only (m ≫= f).
Proof.
  intros Hm Hf σ. rewrite bind_run. specialize (Hm σ).
  destruct (m σ) as [[a|e] σ']; simpl in Hm; subst σ'; [apply Hf|done].
Qed.

Lemma reads_only_ret {A} (a : A) : reads_only (mret a : M A).
Proof. by intros σ. Qed.

Lemma reads_only_read_dict l : reads_only (read_dict l).
Proof. intros σ. unfold read_dict. by repeat case_match. Qed.

Lemma reads_only_inspect {A} (f : store → outcome A) :
  reads_only (inspect f).
Proof. by intros σ. Qed.

Lemma reads_only_flag_option clean key default_ :
  reads_only (flag_option clean key default_).
Proof. intros σ. unfold flag_option. by case_match. Qed.

Lemma clean_options_run σ d clean :
  clean_options_of σ d clean →
  match d !! "clean" with
  | Some (VRef l) => read_dict l
  | Some _ => raise AttributeError
  | None => mret ∅
  end σ = (Return clean, σ).
Proof.
  unfold clean_options_of. destruct (d !! "clean") as [[]|]; try done.
  - apply read_dict_run.
  - by intros ->.
Qed.

Lemma preprocess_reads list_of_set keys_in_order name_filter self soup :
  reads_only (_preprocess list_of_set keys_in_order name_filter self soup).
Proof.
  unfold _preprocess.
  apply reads_only_bind; [apply reads_only_read_dict|]. intros opts.
  apply reads_only_bind.
  { repeat case_match; try apply reads_only_read_dict; try apply reads_only_ret.
    all: by intros σ. }
  intros clean.
  apply reads_only_bind; [apply reads_only_inspect|]. intros n1.
  apply reads_only_bind; [apply reads_only_inspect|]. intros n2.
  apply reads_only_bind; [apply reads_only_inspect|]. intros n3.
  apply reads_only_bind; [apply reads_only_flag_option|]. intros f1.
  apply reads_only_bind; [apply reads_only_flag_option|]. intros f2.
  apply reads_only_ret.
Qed.

Lemma reads_only_twice {A} (m : M A) σ :
  reads_only m →
  (first ← m; second ← m; mret (first, second)) σ
  = (a ← m; mret (a, a)) σ.
Proof.
  intros Hm. rewrite !bind_run. specialize (Hm σ).
  destruct (m σ) as [[a|e] σ'] eqn:Hrun; simpl in Hm; subst σ'; [|done].
  by rewrite bind_run, Hrun.
Qed.

Lemma preprocess_steps_run list_of_set keys_in_order name_filter
    self soup d clean (σ : store) :
  σ !! options self = Some (ODict d) →
  clean_options_of σ d clean →
  clean !! "removeTags" = None →
  clean !! "removeAttrs" = None →
  clean !! "removeClasses" = None →
  NoDup (node_id <$> flat_map descendants soup) →
  let soup1 :=
    flat_map (remove_where (named ["script"; "style"; "noscript"])) soup in
  let soup2 :=
    if clean_flag σ clean "removeEmptyTags" false
    then flat_map prune soup1 else soup1 in
  let soup3 :=
    if clean_flag σ clean "removeComments" true
    then flat_map (remove_where is_comment) soup2 else soup2 in
  _preprocess list_of_set keys_in_order name_filter self soup σ
  = (Return soup3, σ).
Proof.
  intros Hd Hclean Htags Hattrs Hclasses Hnd soup1 soup2 soup3.
  unfold _preprocess.
  rewrite bind_run, (read_dict_run _ _ _ Hd). cbv beta iota.
  rewrite bind_run, (clean_options_run _ _ _ Hclean). cbv beta iota.
  unfold tag_filters, listed_names, flag_option, inspect.
  rewrite Htags, Hattrs, Hclasses.
  rewrite bind_run. cbv beta iota zeta.
  change (remove_found (has_name <$> ["script"; "style"; "noscript"]) soup)
    with (remove_tags ["script"; "style"; "noscript"] soup).
  rewrite remove_tags_where by done. fold soup1.
  do 2 (rewrite bind_run; cbv beta iota zeta).
  assert (NoDup (node_id <$> flat_map descendants soup1)) as Hnd1.
  { by apply remove_where_NoDup. }
  assert ((if clean_flag σ clean "removeEmptyTags" false
           then remove_empty_tags soup1 else soup1) = soup2) as Hstep2.
  { unfold soup2. destruct (clean_flag σ clean "removeEmptyTags" false); [|done].
    by apply remove_empty_tags_prune. }
  assert (NoDup (node_id <$> flat_map descendants soup2)) as Hnd2.
  { unfold soup2. destruct (clean_flag σ clean "removeEmptyTags" false); [|done].
    rewrite (flat_map_forall_ext prune (remove_where removable))
      by (apply Forall_forall; intros; apply prune_remove_where).
    by apply remove_where_NoDup. }
  assert ((if clean_flag σ clean "removeComments" true
           then remove_comments soup2 else soup2) = soup3) as Hstep3.
  { unfold soup3. destruct (clean_flag σ clean "removeComments" true); [|done].
    by apply decompose_found. }
  rewrite <- Hstep3, <- Hstep2. unfold clean_flag.
  rewrite bind_run.
  destruct (clean !! "removeEmptyTags") as [v1|]; cbv beta iota;
    rewrite bind_run;
    destruct (clean !! "removeComments") as [v2|]; cbv beta iota;
    by rewrite ret_run.
Qed.

Lemma is_comment_ignores_contents : ignores_contents is_comment.
Proof. by intros i name attrs contents contents'. Qed.

Lemma preprocess_steps_fixed list_of_set keys_in_order name_filter
    self soup d clean (σ : store) :
  σ !! options self = Some (ODict d) →
  clean_options_of σ d clean →
  clean !! "removeTags" = None →
  clean !! "removeAttrs" = None →
  clean !! "removeClasses" = None →
  clean_flag σ clean "removeEmptyTags" false = false →
  NoDup (node_id <$> flat_map descendants soup) →
  ∃ tree,
    _preprocess list_of_set keys_in_order name_filter self soup σ
    = (Return tree, σ)
    ∧ _preprocess list_of_set keys_in_order name_filter self tree σ
      = (Return tree, σ).
Proof.
  intros Hd Hclean Htags Hattrs Hclasses Hempty Hnd.
  pose proof (preprocess_steps_run list_of_set keys_in_order name_filter
                self soup d clean σ Hd Hclean Htags Hattrs Hclasses Hnd)
    as Hfirst.
  cbv zeta in Hfirst. rewrite Hempty in Hfirst.
  eexists. split; [exact Hfirst|].
  set (names := ["script"; "style"; "noscript"]) in *.
  set (tree := if clean_flag σ clean "removeComments" true
               then flat_map (remove_where is_comment)
                      (flat_map (remove_where (named names)) soup)
               else flat_map (remove_where (named names)) soup).
  assert (NoDup (node_id <$> flat_map descendants tree)) as Hnd'.
  { unfold tree. destruct (clean_flag σ clean "removeComments" true);
      repeat apply remove_where_NoDup; done. }
  pose proof (preprocess_steps_run list_of_set keys_in_order name_filter
                self tree d clean σ Hd Hclean Htags Hattrs Hclasses Hnd')
    as Hsecond.
  cbv zeta in Hsecond. rewrite Hempty in Hsecond. fold names in Hsecond.
  rewrite Hsecond. f_equal. f_equal. unfold tree.
  destruct (clean_flag σ clean "removeComments" true).
  - rewrite (remove_where_twice (named names) is_comment soup)
      by apply is_comment_ignores_contents.
    rewrite (remove_where_twice _ (named names))
      by apply named_ignores_contents.
    rewrite (remove_where_twice _ is_comment)
      by apply is_comment_ignores_contents.
    apply remove_where_ext. intros m.
    by destruct (named names m), (is_comment m).
  - rewrite remove_where_twice by apply named_ignores_contents.
    apply remove_where_ext. intros m. by destruct (named names m).
Qed.

End preprocess_more.

(** X15: the loop over the names to remove takes out of the tree every tag
    with one of the names, and all that is in it; the rest of the tree
    stays as it is. *)
Theorem remove_tags_removes_named names soup :
  NoDup (node_id <$> flat_map descendants soup) →
  remove_tags names soup = flat_map (remove_where (named names)) soup.
Proof. apply remove_tags_where. Qed.

Lemma remove_tags_removes_named_witness :
  remove_tags ["script"]
    [Tag 1 "div" ∅ [Tag 2 "script" ∅ [NavigableString 3 "x"];
                    NavigableString 4 "y"]]
  = [Tag 1 "div" ∅ [NavigableString 4 "y"]].
Proof.
  refine (remove_tags_removes_named ["script"]
            [Tag 1 "div" ∅ [Tag 2 "script" ∅ [NavigableString 3 "x"];
                            NavigableString 4 "y"]] _).
  apply (bool_decide_unpack (NoDup [1; 2; 3; 4])). vm_compute. exact I.
Defined.

(** X16: the loop over the comments takes every comment out of the tree,
    and nothing else. *)
Theorem remove_comments_removes_comments soup :
  NoDup (node_id <$> flat_map descendants soup) →
  remove_comments soup = flat_map (remove_where is_comment) soup.
Proof. intros Hnd. by apply decompose_found. Qed.

Lemma remove_comments_removes_comments_witness :
  remove_comments [Tag 1 "p" ∅ [Comment 2 "note"; NavigableString 3 "x"]]
  = [Tag 1 "p" ∅ [NavigableString 3 "x"]].
Proof.
  refine (remove_comments_removes_comments
            [Tag 1 "p" ∅ [Comment 2 "note"; NavigableString 3 "x"]] _).
  apply (bool_decide_unpack (NoDup [1; 2; 3])). vm_compute. exact I.
Defined.

(** X17: the loop over the attributes to remove leaves every tag with its
    attributes less the listed ones; names, contents and order stay. *)
Theorem remove_attrs_strips_listed names soup :
  NoDup (node_id <$> flat_map descendants soup) →
  remove_attrs names soup = map_attrs (without_keys names) <$> soup.
Proof.
  intros Hnd. unfold remove_attrs.
  rewrite (fold_left_ext _ (λ soup i, set_attrs i (without_keys names) soup))
    by (intros; apply remove_attrs_step).
  apply set_attrs_found; [done|].
  intros j name attrs contents _. by left.
Qed.

Lemma remove_attrs_strips_listed_witness :
  let soup :=
    [Tag 1 "p" {[ "style" := AStr "x"; "id" := AStr "a" ]}
       [Tag 2 "b" {[ "style" := AStr "y" ]} []]] in
  remove_attrs ["style"] soup = map_attrs (without_keys ["style"]) <$> soup.
Proof.
  intros soup. apply (remove_attrs_strips_listed ["style"] soup).
  apply (bool_decide_unpack (NoDup [1; 2])). vm_compute. exact I.
Defined.

(** X18: the loop over the tags with a class attribute changes the
    attributes of every tag as [remove_classes_attrs] says, and a tag
    without a class attribute not at all. *)
Theorem remove_classes_maps_tags list_of_set names soup :
  NoDup (node_id <$> flat_map descendants soup) →
  remove_classes list_of_set names soup
  = map_attrs (remove_classes_attrs list_of_set names) <$> soup.
Proof.
  intros Hnd. unfold remove_classes.
  apply set_attrs_found; [done|].
  intros j name attrs contents _. cbn [has_class].
  case_bool_decide as Hc; [by left|right].
  apply remove_classes_attrs_no_class.
  destruct (attrs !! "class") eqn:Hk; [|done]. exfalso. apply Hc. by eexists.
Qed.

Lemma remove_classes_maps_tags_witness :
  let soup :=
    [Tag 1 "p" {[ "class" := AList ["ad"; "lead"] ]}
       [Tag 2 "b" {[ "class" := AList ["ad"] ]} []; Tag 3 "i" ∅ []]] in
  remove_classes (λ classes, classes) ["ad"] soup
  = map_attrs (remove_classes_attrs (λ classes, classes) ["ad"]) <$> soup.
Proof.
  intros soup.
  apply (remove_classes_maps_tags (λ classes, classes) ["ad"] soup).
  apply (bool_decide_unpack (NoDup [1; 2; 3])). vm_compute. exact I.
Defined.

(** X19: [_preprocess] changes no object: it reads the options and leaves
    them, and every other object, as they are, whether it returns or
    raises. *)
Theorem preprocess_reads_only :
  ∀ list_of_set keys_in_order name_filter self soup (σ : store),
    (_preprocess list_of_set keys_in_order name_filter self soup σ).2 = σ.
Proof.
  intros list_of_set keys_in_order name_filter self soup.
  apply preprocess_reads.
Qed.

(** X20: when the value under "clean" is no dict, [_preprocess] raises
    AttributeError. *)
Theorem preprocess_clean_not_dict list_of_set keys_in_order name_filter
    self soup d v (σ : store) :
  σ !! options self = Some (ODict d) →
  d !! "clean" = Some v →
  (∀ l c, v = VRef l → σ !! l ≠ Some (ODict c)) →
  _preprocess list_of_set keys_in_order name_filter self soup σ
  = (Raise AttributeError, σ).
Proof.
  intros Hd Hv Hno. unfold _preprocess.
  rewrite bind_run, (read_dict_run _ _ _ Hd). cbv beta iota.
  rewrite bind_run, Hv. destruct v as [| | | |l]; try done.
  unfold read_dict. specialize (Hno l).
  destruct (σ !! l) as [[c| |]|]; try done.
  by destruct (Hno c eq_refl).
Qed.

Lemma preprocess_clean_not_dict_witness :
  let self := {| options := 1%positive; rules := 2%positive |} in
  let σ : store := {[ 1%positive := ODict {[ "clean" := VBool true ]} ]} in
  _preprocess (λ classes, classes) (λ _ d, (map_to_list d).*1)
              (λ _ _ _, false) self [] σ
  = (Raise AttributeError, σ).
Proof.
  intros self σ.
  apply (preprocess_clean_not_dict (λ classes, classes)
           (λ _ d, (map_to_list d).*1) (λ _ _ _, false) self []
           {[ "clean" := VBool true ]} (VBool true) σ).
  - reflexivity.
  - reflexivity.
  - intros l c H. discriminate H.
Defined.

(** X21: with removeTags, removeAttrs and removeClasses left out,
    [_preprocess] returns the tree without the script, style and noscript
    tags; then, when removeEmptyTags is true, without the tags that are
    empty in that tree and not void; then, unless removeComments is false,
    without the comments.  A tag emptied by the first step is taken by the
    second. *)
Theorem preprocess_default_steps list_of_set keys_in_order name_filter
    self soup d clean (σ : store) :
  σ !! options self = Some (ODict d) →
  clean_options_of σ d clean →
  clean !! "removeTags" = None →
  clean !! "removeAttrs" = None →
  clean !! "removeClasses" = None →
  NoDup (node_id <$> flat_map descendants soup) →
  let soup1 :=
    flat_map (remove_where (named ["script"; "style"; "noscript"])) soup in
  let soup2 :=
    if clean_flag σ clean "removeEmptyTags" false
    then flat_map prune soup1 else soup1 in
  let soup3 :=
    if clean_flag σ clean "removeComments" true
    then flat_map (remove_where is_comment) soup2 else soup2 in
  _preprocess list_of_set keys_in_order name_filter self soup σ
  = (Return soup3, σ).
Proof. apply preprocess_steps_run. Qed.

Lemma preprocess_default_steps_witness :
  let self := {| options := 1%positive; rules := 3%positive |} in
  let clean : gmap string val := {[ "removeEmptyTags" := VBool true ]} in
  let d : gmap string val := {[ "clean" := VRef 2%positive ]} in
  let σ : store := {[ 1%positive := ODict d; 2%positive := ODict clean ]} in
  let soup :=
    [Tag 1 "div" ∅ [Tag 2 "script" ∅ [NavigableString 3 "x"]];
     Comment 4 "note"; Tag 5 "p" ∅ [NavigableString 6 "y"]] in
  let soup1 :=
    flat_map (remove_where (named ["script"; "style"; "noscript"])) soup in
  let soup2 :=
    if clean_flag σ clean "removeEmptyTags" false
    then flat_map prune soup1 else soup1 in
  let soup3 :=
    if clean_flag σ clean "removeComments" true
    then flat_map (remove_where is_comment) soup2 else soup2 in
  _preprocess (λ classes, classes) (λ _ d, (map_to_list d).*1)
              (λ _ _ _, false) self soup σ
  = (Return soup3, σ).
Proof.
  intros self clean d σ soup.
  apply (preprocess_default_steps (λ classes, classes)
           (λ _ d, (map_to_list d).*1) (λ _ _ _, false) self soup d clean σ).
  - reflexivity.
  - reflexivity.
  - reflexivity.
  - reflexivity.
  - reflexivity.
  - apply (bool_decide_unpack (NoDup [1; 2; 3; 4; 5; 6])). vm_compute. exact I.
Defined.

(** ** Repeated calls: [_postprocess] and [_preprocess] *)




Section pass_more.

Lemma prune_ids_node n :
  node_id <$> flat_map descendants (prune n)
  = node_id <$> filter (λ m, removable m = false) (descendants n).
Proof.
  induction n as [j name attrs contents IH|j s|j s] using Node_forall_ind;
    [|done..].
  cbn [prune]. destruct (removable _) eqn:Hr.
  - pose proof (removable_contents _ Hr) as Hc. cbn [contents_of] in Hc.
    subst contents. cbn [descendants flat_map].
    rewrite filter_cons_False by (by rewrite Hr). done.
  - cbn [flat_map]. rewrite app_nil_r. rewrite !descendants_eq.
    cbn [contents_of]. rewrite filter_cons_True by done.
    rewrite !fmap_cons. cbn [node_id]. f_equal. clear Hr.
    induction IH as [|c contents Hc _ IHc]; [done|].
    cbn [flat_map]. rewrite flat_map_app, filter_app, !fmap_app.
    by rewrite Hc, IHc.
Qed.

Lemma prune_ids soup :
  node_id <$> flat_map descendants (flat_map prune soup)
  = node_id <$> filter (λ m, removable m = false) (flat_map descendants soup).
Proof.
  induction soup as [|n soup IH]; [done|].
  cbn [flat_map]. rewrite flat_map_app, filter_app, !fmap_app.
  by rewrite prune_ids_node, IH.
Qed.

End pass_more.

(** X22: the pass over the empty tags keeps every node that is not an empty
    tag outside the void list when the pass starts: text, comments, void
    tags and tags with contents all stay, in document order. *)
Theorem remove_empty_tags_keeps_the_rest soup :
  NoDup (node_id <$> flat_map descendants soup) →
  node_id <$> flat_map descendants (remove_empty_tags soup)
  = node_id <$> filter (λ m, removable m = false) (flat_map descendants soup).
Proof.
  intros Hnd. rewrite remove_empty_tags_prune by done. apply prune_ids.
Qed.

Lemma remove_empty_tags_keeps_the_rest_witness :
  let soup :=
    [Tag 1 "p" ∅ [Tag 2 "br" ∅ []; Tag 3 "span" ∅ []; NavigableString 4 "x"]] in
  node_id <$> flat_map descendants (remove_empty_tags soup)
  = node_id <$> filter (λ m, removable m = false) (flat_map descendants soup).
Proof.
  intros soup. apply (remove_empty_tags_keeps_the_rest soup).
  apply (bool_decide_unpack (NoDup [1; 2; 3; 4])). vm_compute. exact I.
Defined.

